(** * go-libp2p-quic-transport: socket reuse and hole punching

    A shallow embedding of [reuse.go] (counted sockets, the reuse pool and
    its garbage collector) and of [transport.go] (the connection manager,
    [transport.Dial] and [transport.holePunch]), with the properties of
    the design document stated and settled against it.

    Conventions.
    - A Go [int] is a [Z] together with its 64-bit wrap-around ([wrap64]).
    - A [time.Time] is the number of nanoseconds since the zero instant,
      so that [Time{}] is [0] and [IsZero] is a comparison with [0];
      a [time.Duration] is a number of nanoseconds.
    - A [*reuseConn] is a location in a store of counted sockets; the
      pool's indices hold locations, so that the socket a listener holds
      and the one a dialer is handed can be the same object.
    - Whatever the operating system, the kernel's routing table, the
      random number generator, peers and other goroutines decide is an
      explicit argument of the function that consults them. *)

From Stdlib Require Import ZArith Lia.
From stdpp Require Import gmap strings list fin_maps pretty.

Local Open Scope Z_scope.

(** ** Go integers, time and errors *)

Definition wrap64 (z : Z) : Z := (z + 2 ^ 63) mod 2 ^ 64 - 2 ^ 63.

Definition Time := Z.
Definition Duration := Z.

Definition Millisecond : Duration := 1000000.
Definition Second : Duration := 1000 * Millisecond.

Definition IsZero (t : Time) : bool := t =? 0.
Definition Add (t : Time) (d : Duration) : Time := t + d.
Definition Before (t u : Time) : bool := t <? u.

(** [errors.New msg]: an error is its message. *)
Definition error := string.

Inductive result (A : Type) : Type :=
| Ok (a : A)
| Err (e : error).
Arguments Ok {A} a.
Arguments Err {A} e.

(** ** Addresses ([net.IP], [net.UDPAddr]) *)

Definition IP := list Z.

Record UDPAddr := mkUDPAddr { addrIP : IP; Port : Z }.

Definition v4InV6Prefix : IP := [0; 0; 0; 0; 0; 0; 0; 0; 0; 0; 255; 255].
Definition IPv4 (a b c d : Z) : IP := v4InV6Prefix ++ [a; b; c; d].
Definition IPv4zero : IP := IPv4 0 0 0 0.
Definition IPv6zero : IP := replicate 16 0.
Definition IPv6unspecified : IP := IPv6zero.

Definition bytesEqual (a b : IP) : bool := bool_decide (a = b).

Definition IP_Equal (ip x : IP) : bool :=
  if bool_decide (length ip = length x) then bytesEqual ip x
  else if bool_decide (length ip = 4%nat) && bool_decide (length x = 16%nat) then
    bytesEqual (take 12 x) v4InV6Prefix && bytesEqual ip (drop 12 x)
  else if bool_decide (length ip = 16%nat) && bool_decide (length x = 4%nat) then
    bytesEqual (take 12 ip) v4InV6Prefix && bytesEqual (drop 12 ip) x
  else false.

Definition IsUnspecified (ip : IP) : bool :=
  IP_Equal ip IPv4zero || IP_Equal ip IPv6unspecified.

(** ** Counted sockets ([reuseConn]) *)

(** The embedded [net.PacketConn] is represented by the local address it
    is bound to and by whether [Close] has been called on it. *)
Record reuseConn := mkReuseConn {
  LocalAddr : UDPAddr;
  closed : bool;
  refCount : Z;
  unusedSince : Time
}.

Definition newReuseConn (conn : UDPAddr) : reuseConn :=
  {| LocalAddr := conn; closed := false; refCount := 0; unusedSince := 0 |}.

Definition IncreaseCount (c : reuseConn) : reuseConn :=
  {| LocalAddr := LocalAddr c; closed := closed c;
     refCount := wrap64 (refCount c + 1);
     unusedSince := 0 |}.

(** [now] is what [time.Now()] returns inside the call. *)
Definition DecreaseCount (now : Time) (c : reuseConn) : reuseConn :=
  let n := wrap64 (refCount c - 1) in
  {| LocalAddr := LocalAddr c; closed := closed c;
     refCount := n;
     unusedSince := if n =? 0 then now else unusedSince c |}.

Definition Close (c : reuseConn) : reuseConn :=
  {| LocalAddr := LocalAddr c; closed := true;
     refCount := refCount c; unusedSince := unusedSince c |}.

Section GarbageCollection.

(** [maxUnusedDuration] is a package-level variable (10 s by default,
    100 ms in the tests), read at every call. *)
Variable maxUnusedDuration : Duration.

Definition ShouldGarbageCollect (c : reuseConn) (now : Time) : bool :=
  negb (IsZero (unusedSince c)) &&
  Before (Add (unusedSince c) maxUnusedDuration) now.

End GarbageCollection.

Definition defaultMaxUnusedDuration : Duration := 10 * Second.
Definition defaultGarbageCollectInterval : Duration := 30 * Second.

(** ** The reuse pool ([reuse]) *)

(** A [*reuseConn]. *)
Abbreviation loc := positive.

(** The counted sockets that exist, by location. *)
Abbreviation store := (gmap loc reuseConn).

(** [handle] tells whether the netlink handle is set (Linux) or nil. *)
Record reuse := mkReuse {
  garbageCollectorRunning : bool;
  handle : bool;
  unicast : gmap string (gmap Z loc);
  global : gmap Z loc
}.

(** [newReuse]; [netlinkHandle] tells whether [netlink.NewHandle] gave a
    handle. *)
Definition newReuse (netlinkHandle : bool) : reuse :=
  {| garbageCollectorRunning := false; handle := netlinkHandle;
     unicast := ∅; global := ∅ |}.

Definition set_global (g : gmap Z loc) (r : reuse) : reuse :=
  {| garbageCollectorRunning := garbageCollectorRunning r; handle := handle r;
     unicast := unicast r; global := g |}.

Definition set_unicast (u : gmap string (gmap Z loc)) (r : reuse) : reuse :=
  {| garbageCollectorRunning := garbageCollectorRunning r; handle := handle r;
     unicast := u; global := global r |}.

Definition set_running (b : bool) (r : reuse) : reuse :=
  {| garbageCollectorRunning := b; handle := handle r;
     unicast := unicast r; global := global r |}.

(** [maybeStartGarbageCollector]: the goroutine it starts is the
    sequence of [gcTick]s that follow. *)
Definition maybeStartGarbageCollector (r : reuse) : reuse :=
  if negb (garbageCollectorRunning r) then set_running true r else r.

(** [for _, c := range m { return c }]: Go leaves the iteration order
    of a map open; [seed] decides which entry comes first. *)
Definition rangeFirst {K A} `{Countable K} (seed : nat) (m : gmap K A)
  : option (K * A) :=
  let l := map_to_list m in l !! (seed mod length l)%nat.

(** [&reuseConn{...}]: a location not in use. *)
Definition alloc (h : store) : loc := fresh (dom h).

(** What [net.ListenUDP(network, laddr)] answers: an error, or a socket,
    given by the local address it got bound to. *)
Definition listenUDP := string → option UDPAddr → result UDPAddr.

(** What [handle.RouteGet(ip)] answers: an error, or the [Src] of each
    route. *)
Definition routeGet := IP → result (list IP).

Definition wildcardAddr (network : string) : option UDPAddr :=
  if String.eqb network "udp4" then Some {| addrIP := IPv4zero; Port := 0 |}
  else if String.eqb network "udp6" then Some {| addrIP := IPv6zero; Port := 0 |}
  else None.

Section Pool.

Variable maxUnusedDuration : Duration.
(** [net.IP.String]. *)
Variable IP_String : IP → string.

Definition getSourceIPs (RouteGet : routeGet) (r : reuse) (network : string)
    (raddr : UDPAddr) : result (list IP) :=
  if negb (handle r) then Ok []
  else match RouteGet (addrIP raddr) with
       | Err e => Err e
       | Ok routes => Ok routes
       end.

(** The first loop of [dialLocked]. *)
Fixpoint dialUnicast (seed : nat) (u : gmap string (gmap Z loc)) (ips : list IP)
  : option loc :=
  match ips with
  | [] => None
  | ip :: ips' =>
      match u !! IP_String ip with
      | Some conns =>
          match rangeFirst seed conns with
          | Some (_, c) => Some c
          | None => dialUnicast seed u ips'
          end
      | None => dialUnicast seed u ips'
      end
  end.

(** [reuse.dialLocked]. *)
Definition dialLocked (ListenUDP : listenUDP) (seed : nat) (network : string)
    (raddr : UDPAddr) (ips : list IP) (r : reuse) (h : store)
  : result loc * (reuse * store) :=
  match dialUnicast seed (unicast r) ips with
  | Some c => (Ok c, (r, h))
  | None =>
      match rangeFirst seed (global r) with
      | Some (_, conn) => (Ok conn, (r, h))
      | None =>
          match ListenUDP network (wildcardAddr network) with
          | Err e => (Err e, (r, h))
          | Ok conn =>
              let rconn := alloc h in
              (Ok rconn,
               (set_global (<[Port conn := rconn]> (global r)) r,
                <[rconn := newReuseConn conn]> h))
          end
      end
  end.

(** [reuse.Dial]. *)
Definition Dial (RouteGet : routeGet) (ListenUDP : listenUDP) (seed : nat)
    (network : string) (raddr : UDPAddr) (r : reuse) (h : store)
  : result loc * (reuse * store) :=
  match getSourceIPs RouteGet r network raddr with
  | Err e => (Err e, (r, h))
  | Ok ips =>
      match dialLocked ListenUDP seed network raddr ips r h with
      | (Err e, (r', h')) => (Err e, (r', h'))
      | (Ok conn, (r', h')) =>
          (Ok conn, (maybeStartGarbageCollector r', alter IncreaseCount conn h'))
      end
  end.

(** [reuse.Listen]. *)
Definition Listen (ListenUDP : listenUDP) (network : string) (laddr : UDPAddr)
    (r : reuse) (h : store) : result loc * (reuse * store) :=
  match ListenUDP network (Some laddr) with
  | Err e => (Err e, (r, h))
  | Ok localAddr =>
      let rconn := alloc h in
      let h' := <[rconn := IncreaseCount (newReuseConn localAddr)]> h in
      let r1 := maybeStartGarbageCollector r in
      if IsUnspecified (addrIP localAddr) then
        (Ok rconn, (set_global (<[Port localAddr := rconn]> (global r1)) r1, h'))
      else
        let key := IP_String (addrIP localAddr) in
        let u := match unicast r1 !! key with
                 | Some _ => unicast r1
                 | None => <[key := ∅]> (unicast r1)
                 end in
        let inner := default ∅ (u !! key) in
        (Ok rconn,
         (set_unicast (<[key := <[Port localAddr := rconn]> inner]> u) r1, h'))
  end.

(** The body of [for key, conn := range conns] in [runGarbageCollector]:
    [conns] is the map being ranged over, mutated in place. *)
Definition gcConn (now : Time) (st : gmap Z loc * store) (kv : Z * loc)
  : gmap Z loc * store :=
  let '(conns, h) := st in
  let '(key, conn) := kv in
  match h !! conn with
  | Some c =>
      if ShouldGarbageCollect maxUnusedDuration c now
      then (delete key conns, <[conn := Close c]> h)
      else (conns, h)
  | None => (conns, h)
  end.

Definition gcConns (now : Time) (conns : gmap Z loc) (h : store)
  : gmap Z loc * store :=
  foldl (gcConn now) (conns, h) (map_to_list conns).

(** The body of [for ukey, conns := range r.unicast]. *)
Definition gcUnicast (now : Time) (st : gmap string (gmap Z loc) * store)
    (kv : string * gmap Z loc) : gmap string (gmap Z loc) * store :=
  let '(u, h) := st in
  let '(ukey, conns) := kv in
  let '(conns', h') := gcConns now conns h in
  let u' := <[ukey := conns']> u in
  (if (size conns' =? 0)%nat then delete ukey u' else u', h').

(** One tick of the ticker in [runGarbageCollector]; the goroutine
    returns when the flag is cleared. *)
Definition gcTick (now : Time) (r : reuse) (h : store) : reuse * store :=
  let '(g, h1) := gcConns now (global r) h in
  let '(u, h2) := foldl (gcUnicast now) (unicast r, h1) (map_to_list (unicast r)) in
  let r' := set_unicast u (set_global g r) in
  (if (size g =? 0)%nat && (size u =? 0)%nat then set_running false r' else r', h2).

End Pool.

(** ** The connection manager ([connManager]) *)

(** [pConn]: a counted socket of a pool, or a [noreuseConn], whose
    [IncreaseCount] and [DecreaseCount] do nothing. *)
Inductive pConn :=
| ReuseConn (l : loc)
| NoReuseConn (conn : UDPAddr).

Record connManager := mkConnManager {
  reuseUDP4 : reuse;
  reuseUDP6 : reuse;
  reuseportEnable : bool
}.

Definition newConnManager (netlinkHandle reuseport : bool) : connManager :=
  {| reuseUDP4 := newReuse netlinkHandle; reuseUDP6 := newReuse netlinkHandle;
     reuseportEnable := reuseport |}.

(** Which of the two pools [getReuse] returns a pointer to. *)
Inductive family := UDP4 | UDP6.

Definition pool (f : family) (c : connManager) : reuse :=
  match f with UDP4 => reuseUDP4 c | UDP6 => reuseUDP6 c end.

Definition set_pool (f : family) (r : reuse) (c : connManager) : connManager :=
  match f with
  | UDP4 => {| reuseUDP4 := r; reuseUDP6 := reuseUDP6 c;
               reuseportEnable := reuseportEnable c |}
  | UDP6 => {| reuseUDP4 := reuseUDP4 c; reuseUDP6 := r;
               reuseportEnable := reuseportEnable c |}
  end.

Definition getReuse (network : string) : result family :=
  if String.eqb network "udp4" then Ok UDP4
  else if String.eqb network "udp6" then Ok UDP6
  else Err "invalid network: must be either udp4 or udp6".

Section ConnManager.

Variable IP_String : IP → string.

(** [connManager.Listen]. *)
Definition cm_Listen (ListenUDP : listenUDP) (network : string) (laddr : UDPAddr)
    (c : connManager) (h : store) : result pConn * (connManager * store) :=
  if reuseportEnable c then
    match getReuse network with
    | Err e => (Err e, (c, h))
    | Ok f =>
        match Listen IP_String ListenUDP network laddr (pool f c) h with
        | (Err e, (r, h')) => (Err e, (set_pool f r c, h'))
        | (Ok l, (r, h')) => (Ok (ReuseConn l), (set_pool f r c, h'))
        end
    end
  else
    match ListenUDP network (Some laddr) with
    | Err e => (Err e, (c, h))
    | Ok conn => (Ok (NoReuseConn conn), (c, h))
    end.

(** [connManager.Dial]. *)
Definition cm_Dial (RouteGet : routeGet) (ListenUDP : listenUDP) (seed : nat)
    (network : string) (raddr : UDPAddr) (c : connManager) (h : store)
  : result pConn * (connManager * store) :=
  if reuseportEnable c then
    match getReuse network with
    | Err e => (Err e, (c, h))
    | Ok f =>
        match Dial IP_String RouteGet ListenUDP seed network raddr (pool f c) h with
        | (Err e, (r, h')) => (Err e, (set_pool f r c, h'))
        | (Ok l, (r, h')) => (Ok (ReuseConn l), (set_pool f r c, h'))
        end
    end
  else
    match ListenUDP network (wildcardAddr network) with
    | Err e => (Err e, (c, h))
    | Ok conn => (Ok (NoReuseConn conn), (c, h))
    end.

(** [reuse.Close] is called by [connManager.Close] and is not part of the
    sources at hand: whatever it does to a pool and to the sockets, and
    whether it fails, is this parameter. *)
Variable reuse_Close : reuse → store → option error * (reuse * store).

(** [connManager.Close]. *)
Definition cm_Close (c : connManager) (h : store)
  : option error * (connManager * store) :=
  match reuse_Close (reuseUDP6 c) h with
  | (Some err, (r6, h')) => (Some err, (set_pool UDP6 r6 c, h'))
  | (None, (r6, h')) =>
      match reuse_Close (reuseUDP4 c) h' with
      | (res, (r4, h'')) => (res, (set_pool UDP4 r4 (set_pool UDP6 r6 c), h''))
      end
  end.

End ConnManager.

Definition pIncreaseCount (pc : pConn) (h : store) : store :=
  match pc with
  | ReuseConn l => alter IncreaseCount l h
  | NoReuseConn _ => h
  end.

Definition pDecreaseCount (now : Time) (pc : pConn) (h : store) : store :=
  match pc with
  | ReuseConn l => alter (DecreaseCount now) l h
  | NoReuseConn _ => h
  end.

Definition pLocalAddr (pc : pConn) (h : store) : option UDPAddr :=
  match pc with
  | ReuseConn l => LocalAddr <$> h !! l
  | NoReuseConn conn => Some conn
  end.

(** ** The transport *)

Definition ErrHolePunching : error := "hole punching attempted; no active dial".

Definition HolePunchTimeout : Duration := 5 * Second.

Definition errorCodeConnectionGating : Z := 0x47415445.

Definition peerID := string.
Definition multiaddr := string.
Definition PubKey := string.
(** A [quic.Session] of the QUIC engine. *)
Definition session := nat.

(** The [conn] a dial returns; [transport], [privKey] and [localPeer]
    are those of the transport and are left out. *)
Record capableConn := mkConn {
  sess : session;
  localMultiaddr : multiaddr;
  remotePubKey : PubKey;
  remotePeerID : peerID;
  remoteMultiaddr : multiaddr
}.

(** [connCh] is the one-slot channel the listener delivers into. *)
Record activeHolePunch := mkActiveHolePunch {
  connCh : option capableConn;
  fulfilled : bool
}.

(** Calls made on objects the transport does not own, in the order made. *)
Inductive event :=
| EvDecreaseCount (pc : pConn)
| EvWriteTo (pc : pConn) (addr : UDPAddr)
| EvTimer (d : Duration)
| EvWatch (s : session) (pc : pConn)
| EvCloseWithError (s : session) (code : Z) (msg : string).

Record transport := mkTransport {
  connMgr : connManager;
  conns : store;
  gater : bool;
  holePunching : gmap (string * peerID) activeHolePunch;
  calls : list event
}.

Definition set_pools (c : connManager) (h : store) (t : transport) : transport :=
  {| connMgr := c; conns := h; gater := gater t;
     holePunching := holePunching t; calls := calls t |}.

Definition set_holePunching (hp : gmap (string * peerID) activeHolePunch)
    (t : transport) : transport :=
  {| connMgr := connMgr t; conns := conns t; gater := gater t;
     holePunching := hp; calls := calls t |}.

Definition call (evs : list event) (t : transport) : transport :=
  {| connMgr := connMgr t; conns := conns t; gater := gater t;
     holePunching := holePunching t; calls := calls t ++ evs |}.

(** [pconn.DecreaseCount()] through the [pConn] interface. *)
Definition release (now : Time) (pc : pConn) (t : transport) : transport :=
  call [EvDecreaseCount pc]
       (set_pools (connMgr t) (pDecreaseCount now pc (conns t)) t).

(** A function returns, or panics. *)
Inductive outcome (A : Type) : Type :=
| Returned (r : result A)
| Panicked.
Arguments Returned {A} r.
Arguments Panicked {A}.

(** *** The probe schedule of [holePunch] *)

Definition maxSleep (i : Z) : Z :=
  let m := wrap64 (wrap64 (10 * wrap64 (i + 1)) * wrap64 (i + 1)) in
  if m >? 200 then 200 else m.

(** [rand.Intn(n)]: panics unless [0 < n], and otherwise returns a number
    of [[0, n)]; [raw] is what the generator draws. *)
Definition Intn (raw : Z) (n : Z) : option Z :=
  if n <=? 0 then None else Some (raw mod n).

Definition sleepDuration (i : Z) (raw : Z) : option Duration :=
  match Intn raw (maxSleep i) with
  | None => None
  | Some r => Some (wrap64 (wrap64 (10 * Millisecond) + wrap64 (r * Millisecond)))
  end.

(** Why [ctx.Done()] fired: the 5 s deadline of [context.WithTimeout], or
    the cancellation of the caller's context. *)
Inductive ctxCause := DeadlineExceeded | Canceled.

(** The case the [select] of the loop takes. *)
Inductive selected :=
| RecvConn (c : capableConn)
| TimerC
| CtxDone (cause : ctxCause).

(** What happens around one pass of the loop. *)
Record attempt := mkAttempt {
  a_randRead : option error;
  a_WriteTo : option error;
  a_Intn : Z;
  a_select : selected
}.

Inductive loopExit :=
| ExitReturn (c : capableConn)
| ExitBreak (punchErr : error)
| ExitPanic.

(** [for i := 0; ; i++ { ... }]; [None] when the passes given are used
    up with the loop still going. *)
Fixpoint punchLoop (pconn : pConn) (addr : UDPAddr) (i : Z) (script : list attempt)
  : option (loopExit * list event) :=
  match script with
  | [] => None
  | a :: rest =>
      match a_randRead a with
      | Some err => Some (ExitBreak err, [])
      | None =>
          match a_WriteTo a with
          | Some err => Some (ExitBreak err, [])
          | None =>
              match sleepDuration i (a_Intn a) with
              | None => Some (ExitPanic, [EvWriteTo pconn addr])
              | Some d =>
                  let evs := [EvWriteTo pconn addr; EvTimer d] in
                  match a_select a with
                  | RecvConn c => Some (ExitReturn c, evs)
                  | CtxDone _ => Some (ExitBreak ErrHolePunching, evs)
                  | TimerC =>
                      match punchLoop pconn addr (wrap64 (i + 1)) rest with
                      | None => None
                      | Some (ex, evs') => Some (ex, evs ++ evs')
                      end
                  end
              end
          end
      end
  end.

(** What the world around one [holePunch] provides. *)
Record punchEnv := mkPunchEnv {
  p_RouteGet : routeGet;
  p_ListenUDP : listenUDP;
  p_seed : nat;
  p_attempts : list attempt;
  (** the last-chance read of the channel *)
  p_salvage : option capableConn;
  (** [time.Now()] in the deferred [DecreaseCount] *)
  p_now : Time
}.

Section Transport.

Variable IP_String : IP → string.
(** [net.UDPAddr.String]. *)
Variable UDPAddr_String : UDPAddr → string.
(** [toQuicMultiaddr], defined in another file of the package. *)
Variable toQuicMultiaddr : UDPAddr → result multiaddr.

(** [transport.holePunch]; the deferred calls are made on every way out,
    a panic included. [None] when the loop is still going after the
    passes given. *)
Definition holePunch (env : punchEnv) (network : string) (addr : UDPAddr)
    (p : peerID) (t : transport) : option (outcome capableConn * transport) :=
  match cm_Dial IP_String (p_RouteGet env) (p_ListenUDP env) (p_seed env)
                network addr (connMgr t) (conns t) with
  | (Err e, (c, h)) => Some (Returned (Err e), set_pools c h t)
  | (Ok pconn, (c, h)) =>
      let t1 := set_pools c h t in
      let key := (UDPAddr_String addr, p) in
      match holePunching t1 !! key with
      | Some _ =>
          Some (Returned (Err ("already punching hole for " +:+ UDPAddr_String addr)),
                release (p_now env) pconn t1)
      | None =>
          let t2 := set_holePunching
                      (<[key := {| connCh := None; fulfilled := false |}]>
                         (holePunching t1)) t1 in
          match punchLoop pconn addr 0 (p_attempts env) with
          | None => None
          | Some (ex, evs) =>
              let t3 := call evs t2 in
              let unregister t' :=
                set_holePunching (delete key (holePunching t')) t' in
              match ex with
              | ExitReturn c =>
                  Some (Returned (Ok c), release (p_now env) pconn (unregister t3))
              | ExitPanic =>
                  Some (Panicked, release (p_now env) pconn t3)
              | ExitBreak punchErr =>
                  Some (Returned (match p_salvage env with
                                  | Some c => Ok c
                                  | None => Err punchErr
                                  end),
                        release (p_now env) pconn (unregister t3))
              end
          end
      end
  end.

(** What the world around one [Dial] provides. *)
Record dialEnv := mkDialEnv {
  d_DialArgs : result (string * string);
  d_ResolveUDPAddr : result UDPAddr;
  (** [n.GetSimultaneousConnect(ctx)]: [ok] and [isClient] *)
  d_SimultaneousConnect : bool * bool;
  d_punch : punchEnv;
  d_quicDialContext : result session;
  (** the key in [keyCh] when it is read, if there is one *)
  d_keyCh : option PubKey;
  (** [t.gater.InterceptSecured], consulted when [t.gater != nil] *)
  d_InterceptSecured : bool;
  d_now : Time
}.

(** [transport.Dial]. *)
Definition transport_Dial (env : dialEnv) (p : peerID) (t : transport)
  : option (outcome capableConn * transport) :=
  match d_DialArgs env with
  | Err e => Some (Returned (Err e), t)
  | Ok (network, host) =>
  match d_ResolveUDPAddr env with
  | Err e => Some (Returned (Err e), t)
  | Ok addr =>
  match toQuicMultiaddr addr with
  | Err e => Some (Returned (Err e), t)
  | Ok remoteMultiaddr =>
  if fst (d_SimultaneousConnect env) && negb (snd (d_SimultaneousConnect env))
  then holePunch (d_punch env) network addr p t
  else
  match cm_Dial IP_String (p_RouteGet (d_punch env)) (p_ListenUDP (d_punch env))
                (p_seed (d_punch env)) network addr (connMgr t) (conns t) with
  | (Err e, (c, h)) => Some (Returned (Err e), set_pools c h t)
  | (Ok pconn, (c, h)) =>
  let t1 := set_pools c h t in
  match d_quicDialContext env with
  | Err e => Some (Returned (Err e), release (d_now env) pconn t1)
  | Ok s =>
  match d_keyCh env with
  | None =>
      Some (Returned
              (Err "go-libp2p-quic-transport BUG: expected remote pub key to be set"),
            release (d_now env) pconn t1)
  | Some remotePubKey =>
  let t2 := call [EvWatch s pconn] t1 in
  match pLocalAddr pconn (conns t2) with
  | None => Some (Panicked, t2)
  | Some laddr =>
  match toQuicMultiaddr laddr with
  | Err e => Some (Returned (Err e), call [EvCloseWithError s 0 ""] t2)
  | Ok localMultiaddr =>
  let conn := {| sess := s; localMultiaddr := localMultiaddr;
                 remotePubKey := remotePubKey; remotePeerID := p;
                 remoteMultiaddr := remoteMultiaddr |} in
  if gater t2 && negb (d_InterceptSecured env)
  then Some (Returned (Err "secured connection gated"),
             call [EvCloseWithError s errorCodeConnectionGating "connection gated"] t2)
  else Some (Returned (Ok conn), t2)
  end end end end end end end end.

End Transport.

(** ** The sockets a pool tracks *)

(** A place in the indices: [global[port]] or [unicast[ip][port]]. *)
Inductive slot :=
| InGlobal (port : Z)
| InUnicast (ip : string) (port : Z).

Definition at_slot (r : reuse) (k : slot) : option loc :=
  match k with
  | InGlobal port => global r !! port
  | InUnicast ip port =>
      match unicast r !! ip with
      | Some conns => conns !! port
      | None => None
      end
  end.

Definition tracked (r : reuse) : list loc :=
  (map_to_list (global r)).*2 ++
  concat ((λ kv : string * gmap Z loc, (map_to_list kv.2).*2)
            <$> map_to_list (unicast r)).

(** Modelled from the spec: [reuse.Close], which is not part of the
    sources at hand. "Closes all tracked sockets, empties both indices,
    and awaits reaper exit." [closeErr] is what closing each socket
    answers; the first failure met is the one returned. *)
Definition reuse_Close_spec (closeErr : loc → option error) (r : reuse) (h : store)
  : option error * (reuse * store) :=
  (head (omap closeErr (tracked r)),
   ({| garbageCollectorRunning := false; handle := handle r;
       unicast := ∅; global := ∅ |},
    foldr (λ l h', alter Close l h') h (tracked r))).

Global Instance slot_eq_dec : EqDecision slot.
Proof. solve_decision. Defined.

(** No socket is in two places of the indices, and the sockets in the
    indices exist. *)
Definition pool_inv (r : reuse) (h : store) : Prop :=
  (∀ k1 k2 l, at_slot r k1 = Some l → at_slot r k2 = Some l → k1 = k2)
  ∧ (∀ k l, at_slot r k = Some l → is_Some (h !! l)).

(** Every inner map of [u'] is part of the inner map of [u] for the same
    address. *)
Definition usub (u' u : gmap string (gmap Z loc)) : Prop :=
  ∀ ip conns', u' !! ip = Some conns' →
               ∃ conns, u !! ip = Some conns ∧ conns' ⊆ conns.

Section Inner.

Variable IP_String : IP → string.

(** The inner map of [unicast] for an address, empty when there is none. *)
Definition inner (u : gmap string (gmap Z loc)) (ip : IP) : gmap Z loc :=
  default ∅ (u !! IP_String ip).

End Inner.

(** ** What the operations on a pool and its callers can do, one at a time *)

Section Steps.

Variable maxUnusedDuration : Duration.
Variable IP_String : IP → string.

Inductive step : reuse * store → reuse * store → Prop :=
| step_Listen ListenUDP network laddr r h res r' h' :
    Listen IP_String ListenUDP network laddr r h = (res, (r', h')) →
    step (r, h) (r', h')
| step_Dial RouteGet ListenUDP seed network raddr r h res r' h' :
    Dial IP_String RouteGet ListenUDP seed network raddr r h = (res, (r', h')) →
    step (r, h) (r', h')
| step_gc now r h r' h' :
    garbageCollectorRunning r = true →
    gcTick maxUnusedDuration now r h = (r', h') →
    step (r, h) (r', h')
| step_DecreaseCount now l r h :
    step (r, h) (r, alter (DecreaseCount now) l h).

(** The states a pool made by [newReuse] can be in. *)
Definition reachable (r : reuse) (h : store) : Prop :=
  ∃ netlinkHandle, rtc step (newReuse netlinkHandle, ∅) (r, h).

End Steps.

(** The dotted form of [net.IP.String] for IPv4 addresses, used in the
    examples. *)
Definition dotted (ip : IP) : string :=
  match drop (length ip - 4)%nat ip with
  | [a; b; c; d] => pretty a +:+ "." +:+ pretty b +:+ "." +:+ pretty c +:+ "." +:+ pretty d
  | _ => ""
  end.

(** ** Passes of the hole-punch loop, and calls of [DecreaseCount] *)

Definition with_select (s : selected) (a : attempt) : attempt :=
  {| a_randRead := a_randRead a; a_WriteTo := a_WriteTo a;
     a_Intn := a_Intn a; a_select := s |}.

Definition with_attempts (l : list attempt) (env : punchEnv) : punchEnv :=
  {| p_RouteGet := p_RouteGet env; p_ListenUDP := p_ListenUDP env;
     p_seed := p_seed env; p_attempts := l;
     p_salvage := p_salvage env; p_now := p_now env |}.

(** The passes [pre] are made, then in pass [a] the [select] takes
    [ctx.Done()], fired for [cause]. *)
Definition ctx_done_after (pre : list attempt) (a : attempt) (post : list attempt)
    (cause : ctxCause) (env : punchEnv) : punchEnv :=
  with_attempts (pre ++ with_select (CtxDone cause) a :: post) env.

(** A pass after which the loop goes on: the probe is sent and the timer
    fires first. *)
Definition goes_on (a : attempt) : bool :=
  match a_randRead a, a_WriteTo a, a_select a with
  | None, None, TimerC => true
  | _, _, _ => false
  end.

(** The number of [DecreaseCount] calls among the calls made. *)
Fixpoint releases (evs : list event) : nat :=
  match evs with
  | [] => 0
  | EvDecreaseCount _ :: evs' => S (releases evs')
  | _ :: evs' => releases evs'
  end.

(** ** Further notions used by the properties *)

(** A call on a counted socket. *)
Inductive countOp :=
| OpIncrease
| OpDecrease (now : Time).

Definition applyOp (c : reuseConn) (o : countOp) : reuseConn :=
  match o with
  | OpIncrease => IncreaseCount c
  | OpDecrease now => DecreaseCount now c
  end.

(** The calls [ops], in order, on the socket [c]. *)
Definition applyOps (ops : list countOp) (c : reuseConn) : reuseConn :=
  foldl applyOp c ops.

(** Increases minus decreases. *)
Fixpoint balance (ops : list countOp) : Z :=
  match ops with
  | [] => 0
  | OpIncrease :: ops' => 1 + balance ops'
  | OpDecrease _ :: ops' => balance ops' - 1
  end.

(** [conn.ShouldGarbageCollect(now)] for the socket at a location. *)
Definition collectible (maxUnused : Duration) (now : Time) (h : store) (l : loc)
  : bool :=
  match h !! l with
  | Some c => ShouldGarbageCollect maxUnused c now
  | None => false
  end.

(** [unicast[ip][port]]. *)
Definition ulook (u : gmap string (gmap Z loc)) (ip : string) (port : Z)
  : option loc :=
  match u !! ip with
  | Some conns => conns !! port
  | None => None
  end.

Section SlotOf.

Variable IP_String : IP → string.

(** The place [Listen] registers a socket bound to [a] at. *)
Definition slot_of (a : UDPAddr) : slot :=
  if IsUnspecified (addrIP a) then InGlobal (Port a)
  else InUnicast (IP_String (addrIP a)) (Port a).

End SlotOf.

(** The number of watcher goroutines spawned among the calls made. *)
Fixpoint watches (evs : list event) : nat :=
  match evs with
  | [] => 0
  | EvWatch _ _ :: evs' => S (watches evs')
  | _ :: evs' => watches evs'
  end.

(** The collector runs exactly when the pool tracks a socket, and no
    inner map of [unicast] is empty. *)
Definition pool_live_inv (r : reuse) : Prop :=
  (garbageCollectorRunning r = true ↔ global r ≠ ∅ ∨ unicast r ≠ ∅)
  ∧ (∀ ip conns, unicast r !! ip = Some conns → conns ≠ ∅).

(** Every socket in the indices exists and has not been closed. *)
Definition pool_open_inv (r : reuse) (h : store) : Prop :=
  ∀ k l, at_slot r k = Some l → ∃ c, h !! l = Some c ∧ closed c = false.

(** ** [transport.Listen] *)

(** The listener [newListener] makes, defined in another file of the
    package. *)
Definition listener := nat.

(** What the world around one [Listen] provides. *)
Record listenEnv := mkListenEnv {
  l_DialArgs : result (string * string);
  l_ResolveUDPAddr : result UDPAddr;
  l_ListenUDP : listenUDP;
  l_newListener : result listener;
  (** [time.Now()] in [DecreaseCount] *)
  l_now : Time
}.

Section TransportListen.

Variable IP_String : IP → string.

(** [transport.Listen]. *)
Definition transport_Listen (env : listenEnv) (t : transport)
  : result listener * transport :=
  match l_DialArgs env with
  | Err e => (Err e, t)
  | Ok (lnet, host) =>
  match l_ResolveUDPAddr env with
  | Err e => (Err e, t)
  | Ok laddr =>
  match cm_Listen IP_String (l_ListenUDP env) lnet laddr (connMgr t) (conns t) with
  | (Err e, (c, h)) => (Err e, set_pools c h t)
  | (Ok conn, (c, h)) =>
  let t1 := set_pools c h t in
  match l_newListener env with
  | Err e => (Err e, release (l_now env) conn t1)
  | Ok ln => (Ok ln, t1)
  end end end end.

End TransportListen.

(** ** Inputs of the examples *)

(** An IPv6 pool tracking socket 1, whose close fails, and an IPv4 pool
    tracking socket 2. *)
Definition two_pools : connManager * store :=
  let a6 := {| addrIP := IPv6zero; Port := 6000 |} in
  let a4 := {| addrIP := IPv4zero; Port := 4000 |} in
  ({| reuseUDP4 := set_running true (set_global {[4000 := 2%positive]} (newReuse true));
      reuseUDP6 := set_running true (set_global {[6000 := 1%positive]} (newReuse true));
      reuseportEnable := true |},
   {[1%positive := IncreaseCount (newReuseConn a6);
     2%positive := IncreaseCount (newReuseConn a4)]}).

Definition close_fails_on_1 (l : loc) : option error :=
  if bool_decide (l = 1%positive) then Some "close failed" else None.

(** An operating system that binds the address it is asked for, with
    5000 for the port it picks when asked for port 0. *)
Definition bind_any : listenUDP := λ network laddr,
  match laddr with
  | Some a => Ok {| addrIP := addrIP a;
                    Port := if Port a =? 0 then 5000 else Port a |}
  | None => Err "missing address"
  end.

Definition route_via (ips : list IP) : routeGet := λ _, Ok ips.

Definition remote_1_1_1_1 : UDPAddr := {| addrIP := IPv4 1 1 1 1; Port := 1234 |}.

(** A pool on which [Listen] was called for 10.0.0.1:4001. *)
Definition pool_unicast : reuse * store :=
  (Listen dotted bind_any "udp4" {| addrIP := IPv4 10 0 0 1; Port := 4001 |}
          (newReuse true) ∅).2.

(** The same pool after a [Listen] for 0.0.0.0:0. *)
Definition pool_unicast_global : reuse * store :=
  (Listen dotted bind_any "udp4" {| addrIP := IPv4zero; Port := 0 |}
          pool_unicast.1 pool_unicast.2).2.

(** [net.UDPAddr.String] and [toQuicMultiaddr] for IPv4 addresses. *)
Definition addr_string (a : UDPAddr) : string :=
  dotted (addrIP a) +:+ ":" +:+ pretty (Port a).

Definition quic_multiaddr (a : UDPAddr) : result multiaddr :=
  Ok ("/ip4/" +:+ dotted (addrIP a) +:+ "/udp/" +:+ pretty (Port a) +:+ "/quic").

(** A transport with reuse enabled whose IPv4 pool tracks the socket of
    a listener on 0.0.0.0:5000. *)
Definition listening_transport : transport :=
  let '(_, (c, h)) :=
    cm_Listen dotted bind_any "udp4" {| addrIP := IPv4zero; Port := 0 |}
              (newConnManager false true) ∅ in
  {| connMgr := c; conns := h; gater := false; holePunching := ∅; calls := [] |}.

Definition probe (s : selected) : attempt :=
  {| a_randRead := None; a_WriteTo := None; a_Intn := 7; a_select := s |}.

Definition punch_env (script : list attempt) (salvage : option capableConn)
  : punchEnv :=
  {| p_RouteGet := route_via []; p_ListenUDP := bind_any; p_seed := 0;
     p_attempts := script; p_salvage := salvage; p_now := 1000 |}.

(** A dial whose handshake succeeds as session 1 and whose key channel
    is empty when read. *)
Definition dial_without_key : dialEnv :=
  {| d_DialArgs := Ok ("udp4", "1.1.1.1:1234");
     d_ResolveUDPAddr := Ok remote_1_1_1_1;
     d_SimultaneousConnect := (false, false);
     d_punch := punch_env [] None;
     d_quicDialContext := Ok 1%nat;
     d_keyCh := None;
     d_InterceptSecured := true;
     d_now := 1000 |}.

Definition delivered_conn : capableConn :=
  {| sess := 9%nat; localMultiaddr := "/ip4/0.0.0.0/udp/5000/quic";
     remotePubKey := "key"; remotePeerID := "peer";
     remoteMultiaddr := "/ip4/1.1.1.1/udp/1234/quic" |}.

(** A socket at count 0, idle since instant 7. *)
Definition idle_conn : reuseConn :=
  {| LocalAddr := {| addrIP := IPv4zero; Port := 5000 |};
     closed := false; refCount := 0; unusedSince := 7 |}.

(** A dial whose handshake succeeds as session 1, with the key of the
    remote in the channel. *)
Definition dial_with_key : dialEnv :=
  {| d_DialArgs := Ok ("udp4", "1.1.1.1:1234");
     d_ResolveUDPAddr := Ok remote_1_1_1_1;
     d_SimultaneousConnect := (false, false);
     d_punch := punch_env [] None;
     d_quicDialContext := Ok 1%nat;
     d_keyCh := Some "key";
     d_InterceptSecured := true;
     d_now := 1000 |}.

(** A dial whose handshake fails. *)
Definition dial_handshake_fails : dialEnv :=
  {| d_DialArgs := Ok ("udp4", "1.1.1.1:1234");
     d_ResolveUDPAddr := Ok remote_1_1_1_1;
     d_SimultaneousConnect := (false, false);
     d_punch := punch_env [] None;
     d_quicDialContext := Err "handshake failed";
     d_keyCh := None;
     d_InterceptSecured := true;
     d_now := 1000 |}.

(** A pass whose probe cannot be sent. *)
Definition unsent_probe : attempt :=
  {| a_randRead := None; a_WriteTo := Some "network is unreachable";
     a_Intn := 7; a_select := TimerC |}.

(** A transport with reuse enabled and nothing listening. *)
Definition new_transport : transport :=
  {| connMgr := newConnManager false true; conns := ∅; gater := false;
     holePunching := ∅; calls := [] |}.

(** A listen on 0.0.0.0:0 whose socket is bound and whose listener
    cannot be made. *)
Definition listen_wrap_fails : listenEnv :=
  {| l_DialArgs := Ok ("udp4", "0.0.0.0:0");
     l_ResolveUDPAddr := Ok {| addrIP := IPv4zero; Port := 0 |};
     l_ListenUDP := bind_any;
     l_newListener := Err "listener failed";
     l_now := 1000 |}.

(** * Properties *)

(** ** Go integers *)

Lemma wrap64_small z : - 2 ^ 63 ≤ z < 2 ^ 63 → wrap64 z = z.
Proof.
  intros Hz. unfold wrap64.
  rewrite Z.mod_small by lia. lia.
Qed.

Lemma wrap64_range z : - 2 ^ 63 ≤ wrap64 z < 2 ^ 63.
Proof.
  unfold wrap64.
  pose proof (Z.mod_pos_bound (z + 2 ^ 63) (2 ^ 64)). lia.
Qed.

(** ** Counted sockets *)

Example IncreaseCount_fresh a :
  refCount (IncreaseCount (newReuseConn a)) = 1.
Proof. reflexivity. Qed.

Example DecreaseCount_to_zero a :
  DecreaseCount 42 (IncreaseCount (newReuseConn a))
  = {| LocalAddr := a; closed := false; refCount := 0; unusedSince := 42 |}.
Proof. reflexivity. Qed.

Lemma ShouldGarbageCollect_spec maxUnused c now :
  ShouldGarbageCollect maxUnused c now = true
  ↔ unusedSince c ≠ 0 ∧ unusedSince c + maxUnused < now.
Proof.
  unfold ShouldGarbageCollect, IsZero, Before, Add.
  rewrite andb_true_iff, negb_true_iff, Z.eqb_neq, Z.ltb_lt. tauto.
Qed.

(** C2, as stated: with "now ≥ idle_since + max_unused_duration" the
    equivalence fails, and it fails at the boundary: a socket idle since
    instant 1 is not collected at instant 1 + 10 s. *)
Lemma C2_boundary_counterexample :
  ¬ (∀ maxUnused c now,
       ShouldGarbageCollect maxUnused c now = true
       ↔ IsZero (unusedSince c) = false ∧ unusedSince c + maxUnused ≤ now).
Proof.
  intros Hclaim.
  pose (c := {| LocalAddr := {| addrIP := IPv4zero; Port := 5000 |};
                closed := false; refCount := 0; unusedSince := 1 |}).
  destruct (Hclaim defaultMaxUnusedDuration c (1 + defaultMaxUnusedDuration))
    as [_ Hback].
  assert (Hgc : ShouldGarbageCollect defaultMaxUnusedDuration c
                  (1 + defaultMaxUnusedDuration) = true).
  { apply Hback. split; [reflexivity | simpl; lia]. }
  vm_compute in Hgc. discriminate.
Qed.

(** C2, amended: [ShouldGarbageCollect now] is true if and only if the
    idle timestamp is set and [now] is strictly later than
    [unusedSince + maxUnusedDuration]; at the boundary
    [now = unusedSince + maxUnusedDuration] it is false. *)
Theorem C2_ShouldGarbageCollect_strict maxUnused c now :
  (ShouldGarbageCollect maxUnused c now = true
   ↔ IsZero (unusedSince c) = false ∧ unusedSince c + maxUnused < now)
  ∧ ShouldGarbageCollect maxUnused c (Add (unusedSince c) maxUnused) = false.
Proof.
  split.
  - rewrite ShouldGarbageCollect_spec. unfold IsZero.
    rewrite Z.eqb_neq. tauto.
  - apply not_true_is_false. rewrite ShouldGarbageCollect_spec.
    unfold Add. lia.
Qed.

(** A release undoes an acquisition, as long as the count fits. *)
Lemma DecreaseCount_IncreaseCount now c :
  - 2 ^ 63 ≤ refCount c < 2 ^ 63 - 1 →
  refCount (DecreaseCount now (IncreaseCount c)) = refCount c.
Proof.
  intros Hc. unfold DecreaseCount, IncreaseCount. simpl.
  rewrite (wrap64_small (refCount c + 1)) by lia.
  rewrite wrap64_small by lia. lia.
Qed.

(** C10: [DecreaseCount] at count 0 gives count -1 and leaves the idle
    timestamp as it was (a decrement writes it only when it lands on 0),
    and the [IncreaseCount] that follows gives count 0, not 1. *)
Theorem C10_DecreaseCount_underflow now c :
  refCount c = 0 →
  refCount (DecreaseCount now c) = -1
  ∧ unusedSince (DecreaseCount now c) = unusedSince c
  ∧ refCount (IncreaseCount (DecreaseCount now c)) = 0
  ∧ (∀ now' c', refCount (DecreaseCount now' c') ≠ 0 →
                unusedSince (DecreaseCount now' c') = unusedSince c').
Proof.
  intros H0. unfold IncreaseCount, DecreaseCount. simpl. rewrite H0.
  repeat split.
  intros now' c' Hne. destruct (Z.eqb_spec (wrap64 (refCount c' - 1)) 0); congruence.
Qed.

Lemma C10_DecreaseCount_underflow_witness :
  refCount idle_conn = 0
  ∧ refCount (DecreaseCount 99 idle_conn) = -1
  ∧ unusedSince (DecreaseCount 99 idle_conn) = unusedSince idle_conn
  ∧ refCount (IncreaseCount (DecreaseCount 99 idle_conn)) = 0.
Proof.
  split; [reflexivity |].
  destruct (C10_DecreaseCount_underflow 99 idle_conn eq_refl) as (H1 & H2 & H3 & _).
  exact (conj H1 (conj H2 H3)).
Defined.

(** ** The probe schedule *)

Example maxSleep_first : maxSleep 0 = 10.
Proof. reflexivity. Qed.

Example maxSleep_fourth : maxSleep 3 = 160.
Proof. reflexivity. Qed.

Example maxSleep_capped : maxSleep 4 = 200.
Proof. reflexivity. Qed.

Example sleepDuration_first_longest : sleepDuration 0 9 = Some (19 * Millisecond).
Proof. reflexivity. Qed.

(** As long as [10 * (i + 1) * (i + 1)] fits a Go [int], [maxSleep] is
    the capped square. *)
Lemma maxSleep_exact i :
  0 ≤ i → 10 * (i + 1) * (i + 1) < 2 ^ 63 →
  maxSleep i = Z.min (10 * (i + 1) * (i + 1)) 200.
Proof.
  intros Hi Hfit. unfold maxSleep.
  assert (H1 : wrap64 (i + 1) = i + 1) by (apply wrap64_small; nia).
  rewrite H1.
  assert (H2 : wrap64 (10 * (i + 1)) = 10 * (i + 1)) by (apply wrap64_small; nia).
  rewrite H2.
  rewrite wrap64_small by nia.
  destruct (Z.gtb_spec (10 * (i + 1) * (i + 1)) 200); lia.
Qed.

Lemma maxSleep_bounds i :
  0 ≤ i → 10 * (i + 1) * (i + 1) < 2 ^ 63 → 10 ≤ maxSleep i ≤ 200.
Proof.
  intros Hi Hfit. rewrite maxSleep_exact by assumption. nia.
Qed.

Lemma sleepDuration_draw i raw :
  0 < maxSleep i ≤ 200 →
  sleepDuration i raw = Some ((10 + raw mod maxSleep i) * Millisecond).
Proof.
  intros Hm. unfold sleepDuration, Intn.
  destruct (Z.leb_spec (maxSleep i) 0); [lia |].
  pose proof (Z.mod_pos_bound raw (maxSleep i) ltac:(lia)) as Hr.
  f_equal. unfold Millisecond in *.
  assert (H63 : 2 ^ 63 = 9223372036854775808) by reflexivity.
  rewrite (wrap64_small (10 * 1000000)) by lia.
  rewrite (wrap64_small (raw mod maxSleep i * 1000000)) by lia.
  rewrite wrap64_small; lia.
Qed.

(** C8, as stated: a draw from the closed interval
    [[0, min(10·(i+1)², 200)]] could be the upper end, 10 at the first
    attempt; no sleep of the first attempt is 10 ms + 10 ms. *)
Lemma C8_closed_interval_counterexample :
  ¬ (∀ i r, 0 ≤ i → 0 ≤ r ≤ Z.min (10 * (i + 1) * (i + 1)) 200 →
            ∃ raw, sleepDuration i raw = Some ((10 + r) * Millisecond)).
Proof.
  intros Hclaim.
  destruct (Hclaim 0 10 ltac:(lia) ltac:(simpl; lia)) as [raw Hraw].
  rewrite sleepDuration_draw in Hraw by (change (maxSleep 0) with 10; lia).
  change (maxSleep 0) with 10 in Hraw.
  pose proof (Z.mod_pos_bound raw 10 ltac:(lia)).
  injection Hraw as Hraw. unfold Millisecond in Hraw. lia.
Qed.

(** C8, amended: at every attempt index [i ≥ 0] for which
    [10·(i+1)²] fits a Go [int], the sleep is 10 ms plus a whole number
    [r] of milliseconds with [0 ≤ r < min(10·(i+1)², 200)]: the upper
    end is excluded, every number below it can be drawn, and the sleep
    is at most 209 ms, so it never exceeds 210 ms. *)
Theorem C8_sleepDuration_range i :
  0 ≤ i → 10 * (i + 1) * (i + 1) < 2 ^ 63 →
  (∀ raw, ∃ r, sleepDuration i raw = Some ((10 + r) * Millisecond)
               ∧ 0 ≤ r < Z.min (10 * (i + 1) * (i + 1)) 200
               ∧ (10 + r) * Millisecond ≤ 209 * Millisecond)
  ∧ (∀ r, 0 ≤ r < Z.min (10 * (i + 1) * (i + 1)) 200 →
          ∃ raw, sleepDuration i raw = Some ((10 + r) * Millisecond))
  ∧ (∀ raw d, sleepDuration i raw = Some d →
              10 * Millisecond ≤ d ∧ d < 210 * Millisecond).
Proof.
  intros Hi Hfit.
  pose proof (maxSleep_bounds i Hi Hfit) as Hb.
  pose proof (maxSleep_exact i Hi Hfit) as He.
  assert (Hdraw : ∀ raw, sleepDuration i raw
                         = Some ((10 + raw mod maxSleep i) * Millisecond)).
  { intros raw. apply sleepDuration_draw. lia. }
  split; [| split].
  - intros raw. exists (raw mod maxSleep i).
    pose proof (Z.mod_pos_bound raw (maxSleep i) ltac:(lia)).
    rewrite Hdraw, <- He. unfold Millisecond. repeat split; lia.
  - intros r Hr. exists r. rewrite Hdraw.
    rewrite Z.mod_small by lia. reflexivity.
  - intros raw d Hd. rewrite Hdraw in Hd. injection Hd as <-.
    pose proof (Z.mod_pos_bound raw (maxSleep i) ltac:(lia)).
    unfold Millisecond. lia.
Qed.

Lemma C8_sleepDuration_range_witness :
  0 ≤ 2
  ∧ 10 * (2 + 1) * (2 + 1) < 2 ^ 63
  ∧ ∃ r, sleepDuration 2 1234567 = Some ((10 + r) * Millisecond)
         ∧ 0 ≤ r < Z.min (10 * (2 + 1) * (2 + 1)) 200
         ∧ (10 + r) * Millisecond ≤ 209 * Millisecond.
Proof.
  split; [lia |]. split; [reflexivity |].
  refine (proj1 (C8_sleepDuration_range 2 _ _) 1234567).
  - lia.
  - reflexivity.
Defined.

(** ** Closing the connection manager *)

Lemma cm_Close_both reuse_Close c h r6 h6 :
  reuse_Close (reuseUDP6 c) h = (None, (r6, h6)) →
  cm_Close reuse_Close c h
  = let '(res, (r4, h4)) := reuse_Close (reuseUDP4 c) h6 in
    (res, (set_pool UDP4 r4 (set_pool UDP6 r6 c), h4)).
Proof. intros H6. unfold cm_Close. rewrite H6. reflexivity. Qed.



(** At that input the IPv4 pool still tracks socket 2 after [Close], and
    socket 2 is open. *)
Example cm_Close_leaves_udp4_open :
  let '(res, (c', h')) :=
    cm_Close (reuse_Close_spec close_fails_on_1) two_pools.1 two_pools.2 in
  res = Some "close failed"
  ∧ tracked (reuseUDP4 c') = [2%positive]
  ∧ closed <$> h' !! 2%positive = Some false.
Proof. vm_compute. repeat split. Qed.

(** When no close fails, both pools are closed. *)
Example cm_Close_closes_both :
  let '(res, (c', h')) :=
    cm_Close (reuse_Close_spec (λ _, None)) two_pools.1 two_pools.2 in
  res = None
  ∧ tracked (reuseUDP4 c') = [] ∧ tracked (reuseUDP6 c') = []
  ∧ closed <$> h' !! 1%positive = Some true
  ∧ closed <$> h' !! 2%positive = Some true.
Proof. vm_compute. repeat split. Qed.

(** ** Ranging over a map *)

Section RangeFirst.

Context {K A : Type} `{Countable K}.
Implicit Types (m : gmap K A) (seed : nat).

Lemma rangeFirst_Some seed m k x :
  rangeFirst seed m = Some (k, x) → m !! k = Some x.
Proof.
  unfold rangeFirst. intros Hl.
  apply elem_of_map_to_list. eapply list_elem_of_lookup_2, Hl.
Qed.

Lemma rangeFirst_None seed m : rangeFirst seed m = None ↔ m = ∅.
Proof.
  unfold rangeFirst. split.
  - intros Hl. apply map_to_list_empty_iff.
    destruct (map_to_list m) as [| kv l] eqn:El; [reflexivity |].
    exfalso.
    assert (Hlt : (seed mod length (kv :: l) < length (kv :: l))%nat)
      by (apply Nat.mod_upper_bound; discriminate).
    apply lookup_lt_is_Some_2 in Hlt. rewrite Hl in Hlt.
    destruct Hlt as [? ?]; discriminate.
  - intros ->. rewrite map_to_list_empty. reflexivity.
Qed.

Lemma rangeFirst_nonempty seed m :
  m ≠ ∅ → ∃ k x, rangeFirst seed m = Some (k, x) ∧ m !! k = Some x.
Proof.
  intros Hne. destruct (rangeFirst seed m) as [[k x] |] eqn:E.
  - exists k, x. split; [reflexivity | eapply rangeFirst_Some, E].
  - apply rangeFirst_None in E. contradiction.
Qed.

Lemma rangeFirst_singleton seed k x :
  rangeFirst seed ({[k := x]} : gmap K A) = Some (k, x).
Proof.
  destruct (rangeFirst_nonempty seed ({[k := x]} : gmap K A))
    as (k' & x' & -> & Hl).
  - apply insert_non_empty.
  - apply lookup_singleton_Some in Hl as [-> ->]. reflexivity.
Qed.

End RangeFirst.

(** ** Selecting a socket in [Dial] *)

Section Selection.

Variable IP_String : IP → string.

Local Abbreviation inner := (inner IP_String).

Lemma dialUnicast_none seed u ips :
  Forall (λ ip, inner u ip = ∅) ips → dialUnicast IP_String seed u ips = None.
Proof.
  induction 1 as [| ip ips Hip _ IH]; simpl; [reflexivity |].
  unfold inner in Hip. destruct (u !! IP_String ip) as [conns |]; [| exact IH].
  simpl in Hip. subst conns.
  replace (rangeFirst seed (∅ : gmap Z loc)) with (@None (Z * loc))
    by (symmetry; apply rangeFirst_None; reflexivity).
  exact IH.
Qed.


Lemma alloc_fresh (h : store) : h !! alloc h = None.
Proof. apply not_elem_of_dom. unfold alloc. apply is_fresh. Qed.

Local Abbreviation Dial := (Dial IP_String).


End Selection.


(** ** [Listen], then [Dial] *)

Lemma maybeStartGarbageCollector_global r :
  global (maybeStartGarbageCollector r) = global r.
Proof. unfold maybeStartGarbageCollector. destruct (negb _); reflexivity. Qed.

Lemma maybeStartGarbageCollector_unicast r :
  unicast (maybeStartGarbageCollector r) = unicast r.
Proof. unfold maybeStartGarbageCollector. destruct (negb _); reflexivity. Qed.

Lemma maybeStartGarbageCollector_handle r :
  handle (maybeStartGarbageCollector r) = handle r.
Proof. unfold maybeStartGarbageCollector. destruct (negb _); reflexivity. Qed.

Lemma maybeStartGarbageCollector_running r :
  garbageCollectorRunning (maybeStartGarbageCollector r) = true.
Proof.
  unfold maybeStartGarbageCollector.
  destruct (garbageCollectorRunning r) eqn:E; simpl; [exact E | reflexivity].
Qed.

Example scenario_Listen_wildcard :
  let '(res, (r, h)) :=
    Listen dotted bind_any "udp4" {| addrIP := IPv4zero; Port := 0 |}
           (newReuse false) ∅ in
  res = Ok 1%positive
  ∧ map_to_list (global r) = [(5000, 1%positive)]
  ∧ refCount <$> h !! 1%positive = Some 1.
Proof. vm_compute. repeat split. Qed.

Example scenario_Dial_fresh_pool :
  let '(res, (r, h)) :=
    Dial dotted (route_via []) bind_any 0 "udp4" remote_1_1_1_1 (newReuse false) ∅ in
  res = Ok 1%positive
  ∧ map_to_list (global r) = [(5000, 1%positive)]
  ∧ h !! 1%positive
    = Some {| LocalAddr := {| addrIP := IPv4zero; Port := 5000 |};
              closed := false; refCount := 1; unusedSince := 0 |}.
Proof. vm_compute. repeat split. Qed.

Lemma pool_unicast_reachable :
  reachable defaultMaxUnusedDuration dotted pool_unicast.1 pool_unicast.2.
Proof.
  exists true. apply rtc_once.
  eapply (step_Listen _ dotted bind_any "udp4"
            {| addrIP := IPv4 10 0 0 1; Port := 4001 |} _ _ (Ok 1%positive)).
  vm_compute. reflexivity.
Qed.

(** C4, as stated: on a pool that already tracks a socket bound to
    10.0.0.1, the source address the kernel resolves for 1.1.1.1, a
    [Listen] on 0.0.0.0:0 registers socket 2 in [global] with count 1,
    and the [Dial] that follows returns socket 1. *)
Lemma C4_other_socket_counterexample :
  ¬ (∀ r h ListenUDP network laddr c port r1 h1
       RouteGet ListenUDP' seed network' raddr,
       reachable defaultMaxUnusedDuration dotted r h →
       Listen dotted ListenUDP network laddr r h = (Ok c, (r1, h1)) →
       IsUnspecified (addrIP laddr) = true →
       global r1 !! port = Some c →
       refCount <$> h1 !! c = Some 1 →
       ∃ r2 h2,
         Dial dotted RouteGet ListenUDP' seed network' raddr r1 h1
         = (Ok c, (r2, h2))
         ∧ refCount <$> h2 !! c = Some 2).
Proof.
  intros Hclaim.
  destruct (Hclaim pool_unicast.1 pool_unicast.2 bind_any "udp4"
              {| addrIP := IPv4zero; Port := 0 |} 2%positive 5000
              pool_unicast_global.1 pool_unicast_global.2
              (route_via [IPv4 10 0 0 1]) bind_any 0%nat "udp4" remote_1_1_1_1)
    as (r2 & h2 & HDial & _).
  - exact pool_unicast_reachable.
  - vm_compute. reflexivity.
  - reflexivity.
  - vm_compute. reflexivity.
  - vm_compute. reflexivity.
  - vm_compute in HDial. discriminate.
Qed.

Section ListenThenDial.

Variable IP_String : IP → string.

Local Abbreviation inner := (inner IP_String).

(** C4, amended: when the pool has no socket in [unicast] for any source
    address resolved for the remote, and none in [global] under another
    port than the one the listener gets bound to (a new pool is such a
    pool), a [Listen] on a wildcard address that succeeds registers its
    socket in [global] with count 1, and the [Dial] that follows with no
    other operation in between returns that same socket, with count 2. *)
Theorem C4_Listen_then_Dial ListenUDP network laddr r h bound
    RouteGet ListenUDP' seed network' raddr ips :
  ListenUDP network (Some laddr) = Ok bound →
  IsUnspecified (addrIP bound) = true →
  getSourceIPs RouteGet r network' raddr = Ok ips →
  Forall (λ ip, inner (unicast r) ip = ∅) ips →
  (∀ port, port ≠ Port bound → global r !! port = None) →
  ∃ c r1 h1 r2 h2,
    Listen IP_String ListenUDP network laddr r h = (Ok c, (r1, h1))
    ∧ global r1 !! Port bound = Some c
    ∧ refCount <$> h1 !! c = Some 1
    ∧ Dial IP_String RouteGet ListenUDP' seed network' raddr r1 h1
      = (Ok c, (r2, h2))
    ∧ refCount <$> h2 !! c = Some 2.
Proof.
  intros Hbind Hwild Hips Hnone Hglobal.
  unfold Listen. rewrite Hbind, Hwild.
  set (c := alloc h).
  set (r1 := set_global _ _).
  set (h1 := <[c := _]> h).
  assert (Hg1 : global r1 = {[Port bound := c]}).
  { subst r1. simpl. rewrite maybeStartGarbageCollector_global.
    apply map_eq. intros port.
    destruct (decide (Port bound = port)) as [<- | Hne].
    - rewrite lookup_insert_eq, lookup_singleton_eq. reflexivity.
    - rewrite lookup_insert_ne, lookup_singleton_ne by exact Hne.
      apply Hglobal. congruence. }
  assert (Hu1 : unicast r1 = unicast r).
  { subst r1. simpl. apply maybeStartGarbageCollector_unicast. }
  assert (Hips1 : getSourceIPs RouteGet r1 network' raddr = Ok ips).
  { rewrite <- Hips. unfold getSourceIPs. subst r1. simpl.
    rewrite maybeStartGarbageCollector_handle. reflexivity. }
  exists c, r1, h1. do 2 eexists.
  split; [reflexivity |].
  split; [rewrite Hg1; apply lookup_singleton_eq |].
  split; [subst h1; rewrite lookup_insert_eq; reflexivity |].
  unfold Dial. rewrite Hips1. unfold dialLocked.
  rewrite Hu1, (dialUnicast_none _ _ _ _ Hnone), Hg1, rangeFirst_singleton.
  split; [reflexivity |].
  subst h1. rewrite lookup_alter_eq, lookup_insert_eq. reflexivity.
Qed.

End ListenThenDial.

Lemma C4_Listen_then_Dial_witness :
  bind_any "udp4" (Some {| addrIP := IPv4zero; Port := 0 |})
  = Ok {| addrIP := IPv4zero; Port := 5000 |}
  ∧ IsUnspecified IPv4zero = true
  ∧ ∃ c r1 h1 r2 h2,
      Listen dotted bind_any "udp4" {| addrIP := IPv4zero; Port := 0 |}
             (newReuse false) ∅ = (Ok c, (r1, h1))
      ∧ global r1 !! 5000 = Some c
      ∧ refCount <$> h1 !! c = Some 1
      ∧ Dial dotted (route_via []) bind_any 0 "udp4" remote_1_1_1_1 r1 h1
        = (Ok c, (r2, h2))
      ∧ refCount <$> h2 !! c = Some 2.
Proof.
  split; [reflexivity |]. split; [reflexivity |].
  refine (C4_Listen_then_Dial dotted bind_any "udp4"
            {| addrIP := IPv4zero; Port := 0 |} (newReuse false) ∅
            {| addrIP := IPv4zero; Port := 5000 |}
            (route_via []) bind_any 0%nat "udp4" remote_1_1_1_1 []
            eq_refl eq_refl eq_refl (Forall_nil_2 _) _).
  intros port _. apply lookup_empty.
Defined.

(** ** The indices of a pool *)

Lemma pool_inv_new netlinkHandle : pool_inv (newReuse netlinkHandle) ∅.
Proof.
  split.
  - intros [port | ip port] k2 l Hl; simpl in Hl.
    + rewrite lookup_empty in Hl. discriminate.
    + rewrite lookup_empty in Hl. discriminate.
  - intros [port | ip port] l Hl; simpl in Hl; rewrite lookup_empty in Hl;
      discriminate.
Qed.

(** Putting a new socket in one place keeps the invariant. *)
Lemma pool_inv_register r h r' h' k0 c :
  pool_inv r h → h !! c = None →
  (∀ k, at_slot r' k = if decide (k = k0) then Some c else at_slot r k) →
  is_Some (h' !! c) → (∀ l, is_Some (h !! l) → is_Some (h' !! l)) →
  pool_inv r' h'.
Proof.
  intros [Hinj Hex] Hfresh Hat Hc Hmono.
  assert (Hold : ∀ k, at_slot r k ≠ Some c).
  { intros k Hk. apply Hex in Hk. rewrite Hfresh in Hk.
    destruct Hk as [? ?]; discriminate. }
  split.
  - intros k1 k2 l H1 H2. rewrite Hat in H1, H2.
    destruct (decide (k1 = k0)) as [-> | N1], (decide (k2 = k0)) as [-> | N2].
    + reflexivity.
    + injection H1 as <-. exfalso. exact (Hold _ H2).
    + injection H2 as <-. exfalso. exact (Hold _ H1).
    + exact (Hinj _ _ _ H1 H2).
  - intros k l Hk. rewrite Hat in Hk.
    destruct (decide (k = k0)) as [-> | N].
    + injection Hk as <-. exact Hc.
    + apply Hmono. exact (Hex _ _ Hk).
Qed.

(** Taking sockets out of the indices keeps the invariant. *)
Lemma pool_inv_shrink r h r' h' :
  pool_inv r h →
  (∀ k l, at_slot r' k = Some l → at_slot r k = Some l) →
  (∀ l, is_Some (h !! l) → is_Some (h' !! l)) →
  pool_inv r' h'.
Proof.
  intros [Hinj Hex] Hsub Hmono. split.
  - intros k1 k2 l H1 H2. eapply Hinj; apply Hsub; eassumption.
  - intros k l Hk. apply Hmono. eapply Hex, Hsub, Hk.
Qed.

Lemma at_slot_maybeStartGarbageCollector r k :
  at_slot (maybeStartGarbageCollector r) k = at_slot r k.
Proof.
  unfold maybeStartGarbageCollector. destruct (negb _); destruct k; reflexivity.
Qed.

Lemma at_slot_set_running b r k : at_slot (set_running b r) k = at_slot r k.
Proof. destruct k; reflexivity. Qed.

Lemma at_slot_insert_global r port c k :
  at_slot (set_global (<[port := c]> (global r)) r) k
  = if decide (k = InGlobal port) then Some c else at_slot r k.
Proof.
  destruct k as [port' | ip port']; simpl.
  - destruct (decide (InGlobal port' = InGlobal port)) as [E | N].
    + injection E as ->. apply lookup_insert_eq.
    + apply lookup_insert_ne. congruence.
  - destruct (decide (InUnicast ip port' = InGlobal port)); [discriminate |].
    reflexivity.
Qed.

Lemma at_slot_insert_unicast r key port c k :
  let u := match unicast r !! key with
           | Some _ => unicast r
           | None => <[key := ∅]> (unicast r)
           end in
  at_slot (set_unicast (<[key := <[port := c]> (default ∅ (u !! key))]> u) r) k
  = if decide (k = InUnicast key port) then Some c else at_slot r k.
Proof.
  intros u. destruct k as [port' | ip port']; simpl.
  - destruct (decide (InGlobal port' = InUnicast key port)); [discriminate |].
    reflexivity.
  - assert (Hu : ∀ p, default ∅ (u !! key) !! p
                      = match unicast r !! key with
                        | Some conns => conns !! p
                        | None => None
                        end).
    { intros p. subst u. destruct (unicast r !! key) as [conns |] eqn:E.
      - rewrite E. reflexivity.
      - rewrite lookup_insert_eq. simpl. apply lookup_empty. }
    destruct (decide (ip = key)) as [-> | Nip].
    + rewrite lookup_insert_eq.
      destruct (decide (port' = port)) as [-> | Np].
      * rewrite lookup_insert_eq.
        destruct (decide (InUnicast key port = InUnicast key port)); congruence.
      * rewrite lookup_insert_ne by congruence. rewrite Hu.
        destruct (decide (InUnicast key port' = InUnicast key port)); congruence.
    + rewrite lookup_insert_ne by congruence.
      destruct (decide (InUnicast ip port' = InUnicast key port)); [congruence |].
      subst u. destruct (unicast r !! key) eqn:E; [reflexivity |].
      rewrite lookup_insert_ne by congruence. reflexivity.
Qed.

(** ** The garbage collector only removes *)

Section Collector.

Variable maxUnusedDuration : Duration.

Local Abbreviation gcConn := (gcConn maxUnusedDuration).
Local Abbreviation gcConns := (gcConns maxUnusedDuration).
Local Abbreviation gcUnicast := (gcUnicast maxUnusedDuration).
Local Abbreviation gcTick := (gcTick maxUnusedDuration).

Lemma gcConn_foldl now l (conns : gmap Z loc) (h : store) :
  (foldl (gcConn now) (conns, h) l).1 ⊆ conns
  ∧ ∀ c, is_Some (h !! c) → is_Some ((foldl (gcConn now) (conns, h) l).2 !! c).
Proof.
  revert conns h. induction l as [| [key conn] l IH]; intros conns h; simpl.
  - split; [reflexivity | tauto].
  - destruct (h !! conn) as [c |] eqn:Ec; [| apply IH].
    destruct (ShouldGarbageCollect maxUnusedDuration c now); [| apply IH].
    destruct (IH (delete key conns) (<[conn := Close c]> h)) as [Hsub Hmono].
    split.
    + etrans; [exact Hsub | apply delete_subseteq].
    + intros c' Hc'. apply Hmono. apply lookup_insert_is_Some'. right. exact Hc'.
Qed.

Lemma gcConns_sub now (conns : gmap Z loc) (h : store) :
  (gcConns now conns h).1 ⊆ conns
  ∧ ∀ c, is_Some (h !! c) → is_Some ((gcConns now conns h).2 !! c).
Proof. apply gcConn_foldl. Qed.

Lemma usub_refl u : usub u u.
Proof. intros ip conns Hl. exists conns. split; [exact Hl | reflexivity]. Qed.

Lemma gcUnicast_foldl now l u0 u (h : store) :
  usub u u0 →
  (∀ ukey conns, (ukey, conns) ∈ l → u0 !! ukey = Some conns) →
  usub (foldl (gcUnicast now) (u, h) l).1 u0
  ∧ ∀ c, is_Some (h !! c) → is_Some ((foldl (gcUnicast now) (u, h) l).2 !! c).
Proof.
  revert u h. induction l as [| [ukey conns] l IH]; intros u h Hu Hl; simpl.
  - split; [exact Hu | tauto].
  - destruct (gcConns_sub now conns h) as [Hsub Hmono].
    destruct (gcConns now conns h) as [conns' h'] eqn:Egc. simpl in Hsub, Hmono.
    assert (H0 : u0 !! ukey = Some conns) by (apply Hl; left).
    assert (Hu' : usub (if (size conns' =? 0)%nat
                        then delete ukey (<[ukey := conns']> u)
                        else <[ukey := conns']> u) u0).
    { intros ip c' Hc'.
      destruct (decide (ip = ukey)) as [-> | Nip].
      - destruct (size conns' =? 0)%nat.
        + rewrite lookup_delete_eq in Hc'. discriminate.
        + rewrite lookup_insert_eq in Hc'. injection Hc' as <-.
          exists conns. split; assumption.
      - apply Hu. destruct (size conns' =? 0)%nat.
        + rewrite lookup_delete_ne, lookup_insert_ne in Hc' by congruence.
          exact Hc'.
        + rewrite lookup_insert_ne in Hc' by congruence. exact Hc'. }
    destruct (IH _ h' Hu') as [Hres Hmono'].
    { intros k c Hin. apply Hl. right. exact Hin. }
    split; [exact Hres |].
    intros c Hc. apply Hmono', Hmono, Hc.
Qed.

Lemma gcTick_removes now r (h : store) k l :
  at_slot (gcTick now r h).1 k = Some l → at_slot r k = Some l.
Proof.
  unfold gcTick.
  destruct (gcConns_sub now (global r) h) as [Hg _].
  destruct (gcConns now (global r) h) as [g h1]. simpl in Hg.
  destruct (gcUnicast_foldl now (map_to_list (unicast r)) (unicast r)
              (unicast r) h1 (usub_refl _)) as [Hu _].
  { intros ukey conns Hin. apply elem_of_map_to_list. exact Hin. }
  destruct (foldl (gcUnicast now) (unicast r, h1) (map_to_list (unicast r)))
    as [u h2]. simpl in Hu.
  assert (Hat : at_slot (set_unicast u (set_global g r)) k = Some l
                → at_slot r k = Some l).
  { destruct k as [port | ip port]; simpl.
    - intros Hl. eapply lookup_weaken; eassumption.
    - destruct (u !! ip) as [conns' |] eqn:E; [| discriminate].
      destruct (Hu _ _ E) as (conns & -> & Hsub).
      intros Hl. eapply lookup_weaken; eassumption. }
  destruct ((size g =? 0)%nat && (size u =? 0)%nat); simpl fst.
  - rewrite at_slot_set_running. exact Hat.
  - exact Hat.
Qed.

Lemma gcTick_keeps_store now r (h : store) l :
  is_Some (h !! l) → is_Some ((gcTick now r h).2 !! l).
Proof.
  unfold gcTick. intros Hl.
  destruct (gcConns_sub now (global r) h) as [_ H1].
  destruct (gcConns now (global r) h) as [g h1]. simpl in H1.
  destruct (gcUnicast_foldl now (map_to_list (unicast r)) (unicast r)
              (unicast r) h1 (usub_refl _)) as [_ H2].
  { intros ukey conns Hin. apply elem_of_map_to_list. exact Hin. }
  destruct (foldl (gcUnicast now) (unicast r, h1) (map_to_list (unicast r)))
    as [u h2]. simpl in H2.
  destruct ((size g =? 0)%nat && (size u =? 0)%nat); simpl; apply H2, H1, Hl.
Qed.

End Collector.

(** ** Every operation keeps the invariant of the indices *)

Section Invariant.

Variable maxUnusedDuration : Duration.
Variable IP_String : IP → string.

Lemma pool_inv_same_slots r r' h h' :
  pool_inv r h →
  (∀ k, at_slot r' k = at_slot r k) →
  (∀ l, is_Some (h !! l) → is_Some (h' !! l)) →
  pool_inv r' h'.
Proof.
  intros Hinv Hk Hmono. eapply pool_inv_shrink; [exact Hinv | | exact Hmono].
  intros k l. rewrite Hk. tauto.
Qed.

Lemma alter_keeps_store (f : reuseConn → reuseConn) c (h : store) l :
  is_Some (h !! l) → is_Some (alter f c h !! l).
Proof. intros Hl. apply lookup_alter_is_Some. exact Hl. Qed.

Lemma insert_keeps_store c x (h : store) l :
  is_Some (h !! l) → is_Some (<[c := x]> h !! l).
Proof. intros Hl. apply lookup_insert_is_Some'. right. exact Hl. Qed.

Lemma Listen_keeps_inv ListenUDP network laddr r h res r' h' :
  pool_inv r h →
  Listen IP_String ListenUDP network laddr r h = (res, (r', h')) →
  pool_inv r' h'.
Proof.
  intros Hinv. unfold Listen.
  destruct (ListenUDP network (Some laddr)) as [localAddr | e].
  2: { intros [= _ <- <-]. exact Hinv. }
  assert (Hinv1 : pool_inv (maybeStartGarbageCollector r) h).
  { eapply pool_inv_same_slots; [exact Hinv | | tauto].
    apply at_slot_maybeStartGarbageCollector. }
  destruct (IsUnspecified (addrIP localAddr)); intros [= _ <- <-].
  - eapply pool_inv_register;
      [exact Hinv1 | apply alloc_fresh | apply at_slot_insert_global | |].
    + rewrite lookup_insert_eq. eexists. reflexivity.
    + intros l. apply insert_keeps_store.
  - eapply pool_inv_register;
      [exact Hinv1 | apply alloc_fresh | apply at_slot_insert_unicast | |].
    + rewrite lookup_insert_eq. eexists. reflexivity.
    + intros l. apply insert_keeps_store.
Qed.

Lemma dialLocked_keeps_inv ListenUDP seed network raddr ips r h res r' h' :
  pool_inv r h →
  dialLocked IP_String ListenUDP seed network raddr ips r h = (res, (r', h')) →
  pool_inv r' h'.
Proof.
  intros Hinv. unfold dialLocked.
  destruct (dialUnicast IP_String seed (unicast r) ips) as [c |].
  { intros [= _ <- <-]. exact Hinv. }
  destruct (rangeFirst seed (global r)) as [[port conn] |].
  { intros [= _ <- <-]. exact Hinv. }
  destruct (ListenUDP network (wildcardAddr network)) as [conn | e];
    intros [= _ <- <-]; [| exact Hinv].
  eapply pool_inv_register;
    [exact Hinv | apply alloc_fresh | apply at_slot_insert_global | |].
  - rewrite lookup_insert_eq. eexists. reflexivity.
  - intros l. apply insert_keeps_store.
Qed.

Lemma Dial_keeps_inv RouteGet ListenUDP seed network raddr r h res r' h' :
  pool_inv r h →
  Dial IP_String RouteGet ListenUDP seed network raddr r h = (res, (r', h')) →
  pool_inv r' h'.
Proof.
  intros Hinv. unfold Dial.
  destruct (getSourceIPs RouteGet r network raddr) as [ips | e].
  2: { intros [= _ <- <-]. exact Hinv. }
  destruct (dialLocked IP_String ListenUDP seed network raddr ips r h)
    as [[conn | e] [r1 h1]] eqn:Ed; intros [= _ <- <-].
  - eapply pool_inv_same_slots.
    + eapply dialLocked_keeps_inv; eassumption.
    + apply at_slot_maybeStartGarbageCollector.
    + intros l. apply alter_keeps_store.
  - eapply dialLocked_keeps_inv; eassumption.
Qed.

Lemma gcTick_keeps_inv now r h r' h' :
  pool_inv r h →
  gcTick maxUnusedDuration now r h = (r', h') →
  pool_inv r' h'.
Proof.
  intros Hinv Egc. eapply pool_inv_shrink; [exact Hinv | |].
  - intros k l Hl. apply (gcTick_removes maxUnusedDuration now r h).
    rewrite Egc. exact Hl.
  - intros l Hl.
    pose proof (gcTick_keeps_store maxUnusedDuration now r h l Hl) as Hk.
    rewrite Egc in Hk. exact Hk.
Qed.

Lemma step_keeps_inv r h r' h' :
  pool_inv r h →
  step maxUnusedDuration IP_String (r, h) (r', h') →
  pool_inv r' h'.
Proof.
  intros Hinv Hstep. inversion Hstep; subst.
  - eapply Listen_keeps_inv; eassumption.
  - eapply Dial_keeps_inv; eassumption.
  - eapply gcTick_keeps_inv; eassumption.
  - eapply pool_inv_same_slots; [exact Hinv | reflexivity |].
    intros l'. apply alter_keeps_store.
Qed.

Lemma reachable_inv r h :
  reachable maxUnusedDuration IP_String r h → pool_inv r h.
Proof.
  intros [netlinkHandle Hrtc].
  change (pool_inv (r, h).1 (r, h).2).
  revert Hrtc. generalize (r, h).
  apply (rtc_ind_r (λ s : reuse * store, pool_inv s.1 s.2)).
  - apply pool_inv_new.
  - intros [r1 h1] [r2 h2] _ Hstep IH. simpl in *.
    eapply step_keeps_inv; eassumption.
Qed.

(** C3: in every state a pool can reach by [Listen], [Dial], ticks of the
    garbage collector (and releases by the callers), a socket the pool
    tracks is in exactly one place of the two indices, no place holds
    two sockets, and each further step keeps it so. *)
Theorem C3_one_place_per_socket r h :
  reachable maxUnusedDuration IP_String r h →
  (∀ k1 k2 l, at_slot r k1 = Some l → at_slot r k2 = Some l → k1 = k2)
  ∧ (∀ k l1 l2, at_slot r k = Some l1 → at_slot r k = Some l2 → l1 = l2)
  ∧ (∀ r' h', step maxUnusedDuration IP_String (r, h) (r', h') →
              ∀ k1 k2 l, at_slot r' k1 = Some l → at_slot r' k2 = Some l →
                         k1 = k2).
Proof.
  intros Hreach. pose proof (reachable_inv r h Hreach) as Hinv.
  split; [exact (proj1 Hinv) |].
  split; [congruence |].
  intros r' h' Hstep. exact (proj1 (step_keeps_inv r h r' h' Hinv Hstep)).
Qed.

End Invariant.

Lemma C3_one_place_per_socket_witness :
  reachable defaultMaxUnusedDuration dotted pool_unicast.1 pool_unicast.2
  ∧ at_slot pool_unicast.1 (InUnicast "10.0.0.1" 4001) = Some 1%positive
  ∧ at_slot pool_unicast.1 (InGlobal 4001) ≠ Some 1%positive.
Proof.
  split; [exact pool_unicast_reachable |].
  assert (Hat : at_slot pool_unicast.1 (InUnicast "10.0.0.1" 4001) = Some 1%positive)
    by (vm_compute; reflexivity).
  split; [exact Hat |].
  intros Hg.
  pose proof (proj1 (C3_one_place_per_socket defaultMaxUnusedDuration dotted
                       pool_unicast.1 pool_unicast.2 pool_unicast_reachable)
                    _ _ _ Hg Hat) as Heq.
  discriminate Heq.
Defined.

(** ** [transport.Dial] *)

Section DialProperties.

Variable IP_String : IP → string.
Variable UDPAddr_String : UDPAddr → string.
Variable toQuicMultiaddr : UDPAddr → result multiaddr.

Local Abbreviation transport_Dial :=
  (transport_Dial IP_String UDPAddr_String toQuicMultiaddr).

(** C5, on the code: when the handshake succeeds and the key channel is
    empty, [Dial] calls [DecreaseCount] on the socket and returns the
    error, and that is all it does: no [CloseWithError] is called on the
    session, which stays open. *)
Theorem C5_Dial_missing_key_session_left_open
    env p t network host addr remote pconn c h s :
  d_DialArgs env = Ok (network, host) →
  d_ResolveUDPAddr env = Ok addr →
  toQuicMultiaddr addr = Ok remote →
  fst (d_SimultaneousConnect env) && negb (snd (d_SimultaneousConnect env)) = false →
  cm_Dial IP_String (p_RouteGet (d_punch env)) (p_ListenUDP (d_punch env))
          (p_seed (d_punch env)) network addr (connMgr t) (conns t)
  = (Ok pconn, (c, h)) →
  d_quicDialContext env = Ok s →
  d_keyCh env = None →
  ∃ t',
    transport_Dial env p t
    = Some (Returned
              (Err "go-libp2p-quic-transport BUG: expected remote pub key to be set"),
            t')
    ∧ conns t' = pDecreaseCount (d_now env) pconn h
    ∧ calls t' = calls t ++ [EvDecreaseCount pconn].
Proof.
  intros HArgs HResolve HRemote HSim HDial HQuic HKey.
  unfold transport_Dial.
  rewrite HArgs, HResolve, HRemote, HSim, HDial, HQuic, HKey.
  eexists. split; [reflexivity |]. split; reflexivity.
Qed.

End DialProperties.

Lemma C5_Dial_missing_key_witness :
  d_quicDialContext dial_without_key = Ok 1%nat
  ∧ d_keyCh dial_without_key = None
  ∧ ∃ t',
      transport_Dial dotted addr_string quic_multiaddr dial_without_key "peer"
                     listening_transport
      = Some (Returned
                (Err "go-libp2p-quic-transport BUG: expected remote pub key to be set"),
              t')
      ∧ conns t'
        = pDecreaseCount 1000 (ReuseConn 1)
            (alter IncreaseCount 1%positive (conns listening_transport))
      ∧ calls t' = calls listening_transport ++ [EvDecreaseCount (ReuseConn 1)].
Proof.
  split; [reflexivity |]. split; [reflexivity |].
  refine (C5_Dial_missing_key_session_left_open dotted addr_string quic_multiaddr
            dial_without_key "peer" listening_transport
            "udp4" "1.1.1.1:1234" remote_1_1_1_1 "/ip4/1.1.1.1/udp/1234/quic"
            (ReuseConn 1)
            (set_pool UDP4 (reuseUDP4 (connMgr listening_transport))
                      (connMgr listening_transport))
            (alter IncreaseCount 1%positive (conns listening_transport)) 1%nat
            eq_refl eq_refl _ eq_refl _ eq_refl eq_refl).
  - vm_compute. reflexivity.
  - vm_compute. reflexivity.
Defined.

(** At that input the socket is back at count 1 and the only call made
    is the [DecreaseCount]. *)
Example Dial_missing_key_calls :
  match transport_Dial dotted addr_string quic_multiaddr dial_without_key "peer"
                       listening_transport with
  | Some (_, t') =>
      calls t' = [EvDecreaseCount (ReuseConn 1)]
      ∧ refCount <$> conns t' !! 1%positive = Some 1
  | None => False
  end.
Proof. vm_compute. split; reflexivity. Qed.

(** The paths next to it do close the session: when the gater refuses
    the connection, [CloseWithError] is called with the gating code. *)
Example Dial_gated_closes_session :
  let env := {| d_DialArgs := Ok ("udp4", "1.1.1.1:1234");
                d_ResolveUDPAddr := Ok remote_1_1_1_1;
                d_SimultaneousConnect := (false, false);
                d_punch := punch_env [] None;
                d_quicDialContext := Ok 1%nat;
                d_keyCh := Some "key";
                d_InterceptSecured := false;
                d_now := 1000 |} in
  let t := {| connMgr := connMgr listening_transport;
              conns := conns listening_transport;
              gater := true; holePunching := ∅; calls := [] |} in
  match transport_Dial dotted addr_string quic_multiaddr env "peer" t with
  | Some (res, t') =>
      res = Returned (Err "secured connection gated")
      ∧ calls t' = [EvWatch 1%nat (ReuseConn 1);
                    EvCloseWithError 1%nat errorCodeConnectionGating
                                     "connection gated"]
  | None => False
  end.
Proof. vm_compute. split; reflexivity. Qed.

(** ** The hole-punch loop *)

Lemma sleepDuration_defined i raw :
  0 ≤ i → 10 * (i + 1) * (i + 1) < 2 ^ 63 → ∃ d, sleepDuration i raw = Some d.
Proof.
  intros Hi Hfit. pose proof (maxSleep_bounds i Hi Hfit).
  eexists. apply sleepDuration_draw. lia.
Qed.

Lemma releases_app evs evs' : releases (evs ++ evs') = (releases evs + releases evs')%nat.
Proof.
  induction evs as [| e evs IH]; simpl; [reflexivity |].
  destruct e; simpl; rewrite IH; reflexivity.
Qed.

(** The loop does not look at why [ctx.Done()] fired. *)
Lemma punchLoop_cause pconn addr pre a post c1 c2 i :
  punchLoop pconn addr i (pre ++ with_select (CtxDone c1) a :: post)
  = punchLoop pconn addr i (pre ++ with_select (CtxDone c2) a :: post).
Proof.
  revert i. induction pre as [| b pre IH]; intros i; simpl.
  - destruct (a_randRead a); [reflexivity |].
    destruct (a_WriteTo a); [reflexivity |].
    destruct (sleepDuration i (a_Intn a)); reflexivity.
  - destruct (a_randRead b); [reflexivity |].
    destruct (a_WriteTo b); [reflexivity |].
    destruct (sleepDuration i (a_Intn b)); [| reflexivity].
    destruct (a_select b); try reflexivity.
    rewrite IH. reflexivity.
Qed.


(** The loop ends as soon as a pass does not go on. *)
Lemma punchLoop_ends pconn addr script i :
  existsb (λ a, negb (goes_on a)) script = true →
  ∃ ex evs, punchLoop pconn addr i script = Some (ex, evs).
Proof.
  revert i. induction script as [| a script IH]; intros i; simpl.
  - discriminate.
  - unfold goes_on at 1.
    destruct (a_randRead a); [eauto |].
    destruct (a_WriteTo a); [eauto |].
    destruct (sleepDuration i (a_Intn a)); [| eauto].
    destruct (a_select a); simpl; eauto.
    intros Hex. destruct (IH (wrap64 (i + 1)) Hex) as (ex & evs & ->). eauto.
Qed.

(** With the timer firing first in every pass of [pre], the loop gets to
    the pass where [ctx.Done()] is taken and leaves with
    [ErrHolePunching]. *)
Lemma punchLoop_ctx_done pconn addr pre a post cause i :
  Forall (λ b, goes_on b = true) pre →
  0 ≤ i →
  10 * (i + Z.of_nat (length pre) + 1) * (i + Z.of_nat (length pre) + 1) < 2 ^ 63 →
  a_randRead a = None → a_WriteTo a = None →
  ∃ evs, punchLoop pconn addr i (pre ++ with_select (CtxDone cause) a :: post)
         = Some (ExitBreak ErrHolePunching, evs).
Proof.
  intros Hpre. revert i. induction Hpre as [| b pre Hb _ IH]; intros i Hi Hfit Hr Hw.
  - simpl in *. rewrite Hr, Hw.
    destruct (sleepDuration_defined i (a_Intn a) Hi) as [d ->]; [lia |].
    eauto.
  - simpl length in Hfit. simpl. unfold goes_on in Hb.
    destruct (a_randRead b); [discriminate |].
    destruct (a_WriteTo b); [discriminate |].
    destruct (a_select b); try discriminate.
    destruct (sleepDuration_defined i (a_Intn b) Hi) as [d ->]; [nia |].
    rewrite (wrap64_small (i + 1)) by nia.
    destruct (IH (i + 1)) as [evs ->]; [lia | | assumption | assumption |].
    + replace (i + 1 + Z.of_nat (length pre))
        with (i + Z.of_nat (S (length pre))) by lia.
      exact Hfit.
    + eauto.
Qed.

(** ** [transport.holePunch] *)

Section HolePunchProperties.

Variable IP_String : IP → string.
Variable UDPAddr_String : UDPAddr → string.

Local Abbreviation holePunch := (holePunch IP_String UDPAddr_String).

Lemma holePunch_cause env pre a post network addr p t :
  holePunch (ctx_done_after pre a post DeadlineExceeded env) network addr p t
  = holePunch (ctx_done_after pre a post Canceled env) network addr p t.
Proof.
  unfold holePunch, ctx_done_after. simpl.
  destruct (cm_Dial _ _ _ _ _ _ _ _) as [[pconn | e] [c h]]; [| reflexivity].
  destruct (_ !! _); [reflexivity |].
  rewrite (punchLoop_cause pconn addr pre a post DeadlineExceeded Canceled 0).
  reflexivity.
Qed.

(** C6, amended: the expiry of the 5 s deadline and the cancellation of
    the caller's context both reach the loop through [ctx.Done()], and
    [holePunch] does the same in both cases; when the passes before were
    ended by the timer and no connection is in the channel at the last
    read, what it returns in both cases is the one error
    [ErrHolePunching]. *)
Theorem C6_deadline_and_cancellation_same_failure
    env pre a post network addr p t pconn c h :
  cm_Dial IP_String (p_RouteGet env) (p_ListenUDP env) (p_seed env)
          network addr (connMgr t) (conns t) = (Ok pconn, (c, h)) →
  holePunching t !! (UDPAddr_String addr, p) = None →
  Forall (λ b, goes_on b = true) pre →
  10 * (Z.of_nat (length pre) + 1) * (Z.of_nat (length pre) + 1) < 2 ^ 63 →
  a_randRead a = None → a_WriteTo a = None →
  p_salvage env = None →
  holePunch (ctx_done_after pre a post DeadlineExceeded env) network addr p t
  = holePunch (ctx_done_after pre a post Canceled env) network addr p t
  ∧ ∀ cause, ∃ t',
      holePunch (ctx_done_after pre a post cause env) network addr p t
      = Some (Returned (Err ErrHolePunching), t').
Proof.
  intros HDial Hfree Hpre Hfit Hr Hw Hsalvage.
  split; [apply holePunch_cause |].
  intros cause. unfold holePunch, ctx_done_after. simpl.
  rewrite HDial. simpl. rewrite Hfree.
  destruct (punchLoop_ctx_done pconn addr pre a post cause 0 Hpre) as [evs ->];
    [lia | exact Hfit | assumption | assumption |].
  rewrite Hsalvage. eexists. reflexivity.
Qed.


End HolePunchProperties.

(** C6, as stated: with the listener of [listening_transport] and two
    probes, the [select] of the second taking [ctx.Done()], the failure
    returned when the deadline expired and the one returned when the
    caller cancelled are the same error. *)
Lemma C6_same_error_counterexample :
  ¬ (∀ env pre a post network addr p t e1 e2 t1 t2,
       holePunch dotted addr_string
                 (ctx_done_after pre a post DeadlineExceeded env) network addr p t
       = Some (Returned (Err e1), t1) →
       holePunch dotted addr_string
                 (ctx_done_after pre a post Canceled env) network addr p t
       = Some (Returned (Err e2), t2) →
       e1 ≠ e2).
Proof.
  intros Hclaim.
  assert (Hdeadline : ∃ t1,
             holePunch dotted addr_string
               (ctx_done_after [probe TimerC] (probe TimerC) []
                               DeadlineExceeded (punch_env [] None))
               "udp4" remote_1_1_1_1 "peer" listening_transport
             = Some (Returned (Err ErrHolePunching), t1)).
  { vm_compute. eexists. reflexivity. }
  destruct Hdeadline as [t1 Hdeadline].
  pose proof Hdeadline as Hcancel. rewrite holePunch_cause in Hcancel.
  exact (Hclaim _ _ _ _ _ _ _ _ _ _ _ _ Hdeadline Hcancel eq_refl).
Qed.

Lemma C6_deadline_and_cancellation_witness :
  p_salvage (punch_env [] None) = None
  ∧ holePunch dotted addr_string
      (ctx_done_after [probe TimerC] (probe TimerC) [] DeadlineExceeded
                      (punch_env [] None))
      "udp4" remote_1_1_1_1 "peer" listening_transport
    = holePunch dotted addr_string
        (ctx_done_after [probe TimerC] (probe TimerC) [] Canceled
                        (punch_env [] None))
        "udp4" remote_1_1_1_1 "peer" listening_transport
  ∧ ∃ t',
      holePunch dotted addr_string
        (ctx_done_after [probe TimerC] (probe TimerC) [] DeadlineExceeded
                        (punch_env [] None))
        "udp4" remote_1_1_1_1 "peer" listening_transport
      = Some (Returned (Err ErrHolePunching), t').
Proof.
  split; [reflexivity |].
  assert (HDial : cm_Dial dotted (route_via []) bind_any 0 "udp4" remote_1_1_1_1
                          (connMgr listening_transport) (conns listening_transport)
                  = (Ok (ReuseConn 1),
                     (set_pool UDP4 (reuseUDP4 (connMgr listening_transport))
                               (connMgr listening_transport),
                      alter IncreaseCount 1%positive (conns listening_transport))))
    by (vm_compute; reflexivity).
  destruct (C6_deadline_and_cancellation_same_failure dotted addr_string
              (punch_env [] None) [probe TimerC] (probe TimerC) []
              "udp4" remote_1_1_1_1 "peer" listening_transport _ _ _
              HDial (lookup_empty _)
              (Forall_cons_2 (λ b, goes_on b = true) (probe TimerC) []
                             eq_refl (Forall_nil_2 _))
              eq_refl eq_refl eq_refl eq_refl) as [Hsame Herr].
  split; [exact Hsame | exact (Herr DeadlineExceeded)].
Defined.


(** A connection delivered through the channel: the socket of the
    listener is at count 1 again, and the entry is gone from the table. *)
Example holePunch_delivered :
  match holePunch dotted addr_string
          (punch_env [probe TimerC; probe (RecvConn delivered_conn)] None)
          "udp4" remote_1_1_1_1 "peer" listening_transport with
  | Some (out, t') =>
      out = Returned (Ok delivered_conn)
      ∧ refCount <$> conns t' !! 1%positive = Some 1
      ∧ releases (calls t') = 1%nat
      ∧ holePunching t' = ∅
  | None => False
  end.
Proof. vm_compute. repeat split. Qed.

(** The last-chance read of the channel saves a connection delivered
    while the context was being cancelled. *)
Example holePunch_salvaged :
  match holePunch dotted addr_string
          (punch_env [probe (CtxDone Canceled)] (Some delivered_conn))
          "udp4" remote_1_1_1_1 "peer" listening_transport with
  | Some (out, t') =>
      out = Returned (Ok delivered_conn) ∧ releases (calls t') = 1%nat
  | None => False
  end.
Proof. vm_compute. repeat split. Qed.

(** As long as the timer fires first the loop goes on. *)
Example holePunch_still_punching :
  holePunch dotted addr_string (punch_env [probe TimerC; probe TimerC] None)
            "udp4" remote_1_1_1_1 "peer" listening_transport = None.
Proof. vm_compute. reflexivity. Qed.

(** * Further properties *)

(** ** Sequences of calls on a counted socket *)

Lemma applyOps_inv ops c n :
  0 ≤ n → Z.abs (refCount c) ≤ n →
  n + Z.of_nat (length ops) < 2 ^ 63 →
  (0 < refCount c → unusedSince c = 0) →
  refCount (applyOps ops c) = refCount c + balance ops
  ∧ Z.abs (refCount (applyOps ops c)) ≤ n + Z.of_nat (length ops)
  ∧ (0 < refCount (applyOps ops c) → unusedSince (applyOps ops c) = 0).
Proof.
  revert c n. induction ops as [| o ops IH]; intros c n Hn Habs Hlen Hidle.
  - simpl. repeat split; [lia | lia | exact Hidle].
  - simpl length in Hlen. rewrite Nat2Z.inj_succ in Hlen.
    destruct o as [| now].
    + assert (Hc : refCount (IncreaseCount c) = refCount c + 1).
      { simpl. apply wrap64_small. lia. }
      destruct (IH (IncreaseCount c) (n + 1)) as (H1 & H2 & H3);
        [lia | lia | lia | reflexivity |].
      simpl length. rewrite Nat2Z.inj_succ.
      change (applyOps (OpIncrease :: ops) c) with (applyOps ops (IncreaseCount c)).
      simpl balance. repeat split; [lia | lia | exact H3].
    + assert (Hc : refCount (DecreaseCount now c) = refCount c - 1).
      { simpl. apply wrap64_small. lia. }
      destruct (IH (DecreaseCount now c) (n + 1)) as (H1 & H2 & H3);
        [lia | lia | lia | |].
      { intros Hpos. rewrite Hc in Hpos. unfold DecreaseCount; simpl.
        rewrite (wrap64_small (refCount c - 1)) by lia.
        destruct (Z.eqb_spec (refCount c - 1) 0); [lia |].
        apply Hidle. lia. }
      simpl length. rewrite Nat2Z.inj_succ.
      change (applyOps (OpDecrease now :: ops) c)
        with (applyOps ops (DecreaseCount now c)).
      simpl balance. repeat split; [lia | lia | exact H3].
Qed.

(** X1: after any sequence of fewer than 2^63 [IncreaseCount] and
    [DecreaseCount] calls on a new socket, the count is the number of
    increases minus the number of decreases (it may be negative). *)
Theorem X1_count_is_balance ops conn :
  Z.of_nat (length ops) < 2 ^ 63 →
  refCount (applyOps ops (newReuseConn conn)) = balance ops.
Proof.
  intros Hlen.
  destruct (applyOps_inv ops (newReuseConn conn) 0) as (H & _);
    simpl; try lia.
  exact H.
Qed.

Lemma X1_count_is_balance_witness :
  Z.of_nat (length [OpIncrease; OpIncrease; OpDecrease 5]) < 2 ^ 63
  ∧ refCount (applyOps [OpIncrease; OpIncrease; OpDecrease 5]
                       (newReuseConn remote_1_1_1_1))
    = balance [OpIncrease; OpIncrease; OpDecrease 5].
Proof.
  assert (H : Z.of_nat (length [OpIncrease; OpIncrease; OpDecrease 5]) < 2 ^ 63)
    by reflexivity.
  exact (conj H (X1_count_is_balance _ remote_1_1_1_1 H)).
Defined.

(** X2: after any such sequence, a socket whose count is positive has
    no idle timestamp, and the garbage collector does not take it, at any
    time and for any [maxUnusedDuration]. *)
Theorem X2_socket_in_use_not_collected ops conn maxUnused now :
  Z.of_nat (length ops) < 2 ^ 63 →
  0 < refCount (applyOps ops (newReuseConn conn)) →
  unusedSince (applyOps ops (newReuseConn conn)) = 0
  ∧ ShouldGarbageCollect maxUnused (applyOps ops (newReuseConn conn)) now = false.
Proof.
  intros Hlen Hpos.
  destruct (applyOps_inv ops (newReuseConn conn) 0) as (_ & _ & H);
    simpl; try lia.
  specialize (H Hpos). split; [exact H |].
  unfold ShouldGarbageCollect. rewrite H. reflexivity.
Qed.

Lemma X2_socket_in_use_not_collected_witness :
  Z.of_nat (length [OpIncrease; OpIncrease; OpDecrease 5]) < 2 ^ 63
  ∧ 0 < refCount (applyOps [OpIncrease; OpIncrease; OpDecrease 5]
                           (newReuseConn remote_1_1_1_1))
  ∧ ShouldGarbageCollect 0
      (applyOps [OpIncrease; OpIncrease; OpDecrease 5]
                (newReuseConn remote_1_1_1_1)) 1000000 = false.
Proof.
  assert (H : Z.of_nat (length [OpIncrease; OpIncrease; OpDecrease 5]) < 2 ^ 63)
    by reflexivity.
  assert (Hp : 0 < refCount (applyOps [OpIncrease; OpIncrease; OpDecrease 5]
                                      (newReuseConn remote_1_1_1_1)))
    by reflexivity.
  exact (conj H (conj Hp (proj2 (X2_socket_in_use_not_collected
                                   _ remote_1_1_1_1 0 1000000 H Hp)))).
Defined.


(** ** What a tick of the garbage collector takes *)

Section CollectorExact.

Variable maxUnusedDuration : Duration.
Variable now : Time.

Local Abbreviation collectible := (collectible maxUnusedDuration now).
Local Abbreviation gcConn := (gcConn maxUnusedDuration now).
Local Abbreviation gcConns := (gcConns maxUnusedDuration now).
Local Abbreviation gcUnicast := (gcUnicast maxUnusedDuration now).
Local Abbreviation gcTick := (gcTick maxUnusedDuration now).

Lemma collectible_insert_Close (h : store) l c l' :
  h !! l = Some c → collectible (<[l := Close c]> h) l' = collectible h l'.
Proof.
  intros Hl. unfold collectible.
  destruct (decide (l = l')) as [<- | Hne].
  - rewrite lookup_insert_eq, Hl. reflexivity.
  - rewrite lookup_insert_ne by exact Hne. reflexivity.
Qed.

(** One pass of the loop over a map: what it does to the store. *)
Lemma gcConn_step (conns : gmap Z loc) (h : store) key conn :
  let st := gcConn (conns, h) (key, conn) in
  (∀ l, collectible st.2 l = collectible h l)
  ∧ (∀ l, collectible h l = false → st.2 !! l = h !! l)
  ∧ (∀ l, st.2 !! l = h !! l ∨ st.2 !! l = Close <$> h !! l)
  ∧ (collectible h conn = true →
     st.1 = delete key conns ∧ st.2 !! conn = Close <$> h !! conn)
  ∧ (collectible h conn = false → st.1 = conns).
Proof.
  unfold gcConn, collectible. simpl.
  destruct (h !! conn) as [c |] eqn:Ec.
  2: { simpl. repeat split; try tauto; try discriminate. }
  destruct (ShouldGarbageCollect maxUnusedDuration c now) eqn:Eg; simpl.
  2: { repeat split; try tauto; try discriminate. }
  repeat split; try discriminate.
  - intros l. apply (collectible_insert_Close h conn c l Ec).
  - intros l Hl. destruct (decide (conn = l)) as [<- | Hne].
    + rewrite Ec, Eg in Hl. discriminate.
    + apply lookup_insert_ne. exact Hne.
  - intros l. destruct (decide (conn = l)) as [<- | Hne].
    + right. rewrite lookup_insert_eq, Ec. reflexivity.
    + left. apply lookup_insert_ne. exact Hne.
  - rewrite lookup_insert_eq. reflexivity.
Qed.

Lemma fmap_Close_twice (o : option reuseConn) : Close <$> (Close <$> o) = Close <$> o.
Proof. destruct o; reflexivity. Qed.

(** The whole loop over a map. *)
Lemma gcConn_foldl_exact l (conns : gmap Z loc) (h : store) :
  let st := foldl gcConn (conns, h) l in
  (∀ x, collectible st.2 x = collectible h x)
  ∧ (∀ x, collectible h x = false → st.2 !! x = h !! x)
  ∧ (∀ x, st.2 !! x = h !! x ∨ st.2 !! x = Close <$> h !! x)
  ∧ (∀ key c, (key, c) ∈ l → collectible h c = true →
              st.1 !! key = None ∧ st.2 !! c = Close <$> h !! c)
  ∧ (∀ key, (∀ c, (key, c) ∈ l → collectible h c = false) →
            st.1 !! key = conns !! key).
Proof.
  revert conns h. induction l as [| [k0 c0] l IH]; intros conns h; cbn [foldl].
  { cbn [fst snd]. split; [reflexivity |]. split; [reflexivity |]. split; [tauto |].
    split; [| reflexivity].
    intros key c Hin. apply elem_of_nil in Hin. contradiction. }
  destruct (gcConn_step conns h k0 c0) as (S1 & S2 & S3 & S4 & S5).
  pose proof (proj1 (gcConn_foldl maxUnusedDuration now l
                       (gcConn (conns, h) (k0, c0)).1
                       (gcConn (conns, h) (k0, c0)).2)) as Hsub.
  destruct (gcConn (conns, h) (k0, c0)) as [m1 h1]. cbn [fst snd] in *.
  destruct (IH m1 h1) as (A & B & C & D & E). cbn zeta.
  split; [| split; [| split; [| split]]].
  - intros x. rewrite A. apply S1.
  - intros x Hx. rewrite B by (rewrite S1; exact Hx). apply S2, Hx.
  - intros x. destruct (C x) as [-> | ->], (S3 x) as [-> | ->];
      rewrite ?fmap_Close_twice; tauto.
  - intros key c Hin Hc. apply elem_of_cons in Hin as [[= -> ->] | Hin].
    + destruct (S4 Hc) as [-> Hh1]. split.
      * eapply lookup_weaken_None; [apply lookup_delete_eq | exact Hsub].
      * destruct (C c0) as [-> | ->]; rewrite Hh1, ?fmap_Close_twice; reflexivity.
    + destruct (D key c Hin) as [Hk Hs]; [rewrite S1; exact Hc |].
      split; [exact Hk |]. rewrite Hs.
      destruct (S3 c) as [-> | ->]; rewrite ?fmap_Close_twice; reflexivity.
  - intros key Hkey. rewrite E.
    2: { intros c Hin. rewrite S1. apply Hkey. right. exact Hin. }
    destruct (collectible h c0) eqn:Ec0.
    + destruct (S4 eq_refl) as [-> _]. apply lookup_delete_ne.
      intros <-. specialize (Hkey c0 ltac:(left)). congruence.
    + rewrite (S5 eq_refl). reflexivity.
Qed.

Lemma gcConns_lookup (conns : gmap Z loc) (h : store) key c :
  (gcConns conns h).1 !! key = Some c
  ↔ conns !! key = Some c ∧ collectible h c = false.
Proof.
  unfold gcConns.
  destruct (gcConn_foldl_exact (map_to_list conns) conns h) as (_ & _ & _ & D & E).
  pose proof (proj1 (gcConn_foldl maxUnusedDuration now (map_to_list conns) conns h))
    as Hsub.
  split.
  - intros Hl. assert (Hc : conns !! key = Some c) by (eapply lookup_weaken; eassumption).
    split; [exact Hc |].
    destruct (collectible h c) eqn:Ec; [| reflexivity].
    destruct (D key c) as [Hnone _]; [apply elem_of_map_to_list; exact Hc | exact Ec |].
    congruence.
  - intros [Hc Hlive]. rewrite E; [exact Hc |].
    intros c' Hin. apply elem_of_map_to_list in Hin.
    assert (c' = c) by congruence. subst. exact Hlive.
Qed.

Lemma gcConns_store (conns : gmap Z loc) (h : store) :
  (∀ x, collectible (gcConns conns h).2 x = collectible h x)
  ∧ (∀ x, collectible h x = false → (gcConns conns h).2 !! x = h !! x)
  ∧ (∀ x, (gcConns conns h).2 !! x = h !! x
          ∨ (gcConns conns h).2 !! x = Close <$> h !! x)
  ∧ (∀ key c, conns !! key = Some c → collectible h c = true →
              (gcConns conns h).2 !! c = Close <$> h !! c).
Proof.
  unfold gcConns.
  destruct (gcConn_foldl_exact (map_to_list conns) conns h) as (A & B & C & D & _).
  repeat split; try assumption.
  intros key c Hc Hcol. apply (D key c); [apply elem_of_map_to_list; exact Hc | exact Hcol].
Qed.

(** One pass of the loop over [unicast]. *)
Lemma gcUnicast_step (u : gmap string (gmap Z loc)) (h : store) ukey conns :
  let st := gcUnicast (u, h) (ukey, conns) in
  st.2 = (gcConns conns h).2
  ∧ (∀ ip, ip ≠ ukey → st.1 !! ip = u !! ip)
  ∧ (∀ port c, ulook st.1 ukey port = Some c
               ↔ conns !! port = Some c ∧ collectible h c = false)
  ∧ (∀ conns', st.1 !! ukey = Some conns' → conns' ≠ ∅).
Proof.
  unfold gcUnicast. cbn zeta.
  pose proof (gcConns_lookup conns h) as Hlook.
  destruct (gcConns conns h) as [conns' h']. cbn [fst snd] in *.
  destruct (Nat.eqb_spec (size conns') 0) as [Hz | Hnz]; cbn [fst snd].
  - apply map_size_empty_iff in Hz. subst conns'.
    split; [reflexivity |]. split; [| split].
    + intros ip Hne. rewrite lookup_delete_ne, lookup_insert_ne by congruence.
      reflexivity.
    + intros port c. unfold ulook. rewrite lookup_delete_eq.
      rewrite <- Hlook, lookup_empty. tauto.
    + intros cs. rewrite lookup_delete_eq. discriminate.
  - split; [reflexivity |]. split; [| split].
    + intros ip Hne. rewrite lookup_insert_ne by congruence. reflexivity.
    + intros port c. unfold ulook. rewrite lookup_insert_eq. apply Hlook.
    + intros cs. rewrite lookup_insert_eq. intros [= <-].
      apply map_size_non_empty_iff. exact Hnz.
Qed.

(** The whole loop over [unicast]. *)
Lemma gcUnicast_foldl_exact l (u : gmap string (gmap Z loc)) (h : store) :
  NoDup l.*1 →
  let st := foldl gcUnicast (u, h) l in
  (∀ x, collectible st.2 x = collectible h x)
  ∧ (∀ x, collectible h x = false → st.2 !! x = h !! x)
  ∧ (∀ x, st.2 !! x = h !! x ∨ st.2 !! x = Close <$> h !! x)
  ∧ (∀ k conns port c, (k, conns) ∈ l → conns !! port = Some c →
                       collectible h c = true → st.2 !! c = Close <$> h !! c)
  ∧ (∀ ip, ip ∉ l.*1 → st.1 !! ip = u !! ip)
  ∧ (∀ k conns, (k, conns) ∈ l →
       (∀ port c, ulook st.1 k port = Some c
                  ↔ conns !! port = Some c ∧ collectible h c = false)
       ∧ (∀ conns', st.1 !! k = Some conns' → conns' ≠ ∅)).
Proof.
  revert u h. induction l as [| [k0 cs0] l IH]; intros u h Hnd; cbn [foldl].
  { cbn [fst snd]. split; [reflexivity |]. split; [reflexivity |].
    split; [tauto |]. split; [| split; [reflexivity |]].
    - intros k conns port c Hin. apply elem_of_nil in Hin. contradiction.
    - intros k conns Hin. apply elem_of_nil in Hin. contradiction. }
  rewrite fmap_cons in Hnd. apply NoDup_cons in Hnd as [Hk0 Hnd]. cbn [fst] in Hk0.
  destruct (gcUnicast_step u h k0 cs0) as (T1 & T2 & T3 & T4).
  destruct (gcConns_store cs0 h) as (S1 & S2 & S3 & S4).
  destruct (gcUnicast (u, h) (k0, cs0)) as [u1 h1]. cbn [fst snd] in *.
  subst h1.
  destruct (IH u1 (gcConns cs0 h).2 Hnd) as (A & B & C & D & E & F). cbn zeta.
  set (h1 := (gcConns cs0 h).2) in *.
  split; [| split; [| split; [| split; [| split]]]].
  - intros x. rewrite A. apply S1.
  - intros x Hx. rewrite B by (rewrite S1; exact Hx). apply S2, Hx.
  - intros x. destruct (C x) as [-> | ->], (S3 x) as [-> | ->];
      rewrite ?fmap_Close_twice; tauto.
  - intros k conns port c Hin Hc Hcol.
    apply elem_of_cons in Hin as [[= -> ->] | Hin].
    + pose proof (S4 port c Hc Hcol) as Hh1.
      destruct (C c) as [-> | ->]; rewrite Hh1, ?fmap_Close_twice; reflexivity.
    + rewrite (D k conns port c Hin Hc) by (rewrite S1; exact Hcol).
      destruct (S3 c) as [-> | ->]; rewrite ?fmap_Close_twice; reflexivity.
  - intros ip Hip. rewrite fmap_cons in Hip. cbn [fst] in Hip.
    apply not_elem_of_cons in Hip as [Hne Hip].
    rewrite E by exact Hip. apply T2, Hne.
  - intros k conns Hin. apply elem_of_cons in Hin as [[= -> ->] | Hin].
    + split.
      * intros port c. unfold ulook. rewrite (E k0 Hk0). apply T3.
      * intros conns'. rewrite (E k0 Hk0). apply T4.
    + destruct (F k conns Hin) as [F1 F2]. split; [| exact F2].
      intros port c. rewrite F1, S1. reflexivity.
Qed.

(** What a tick leaves in the indices. *)
Lemma gcTick_exact r (h : store) k c :
  at_slot (gcTick r h).1 k = Some c
  ↔ at_slot r k = Some c ∧ collectible h c = false.
Proof.
  unfold gcTick.
  pose proof (gcConns_lookup (global r) h) as Hg.
  destruct (gcConns_store (global r) h) as (S1 & _).
  destruct (gcConns (global r) h) as [g h1]. cbn [fst snd] in *.
  destruct (gcUnicast_foldl_exact (map_to_list (unicast r)) (unicast r) h1
              (NoDup_fst_map_to_list _)) as (_ & _ & _ & _ & E & F).
  destruct (foldl gcUnicast (unicast r, h1) (map_to_list (unicast r))) as [u h2].
  cbn [fst snd] in *.
  assert (Hat : at_slot (set_unicast u (set_global g r)) k = Some c
                ↔ at_slot r k = Some c ∧ collectible h c = false).
  { destruct k as [port | ip port]; cbn [at_slot set_unicast set_global global unicast].
    - apply Hg.
    - change (ulook u ip port = Some c
              ↔ ulook (unicast r) ip port = Some c ∧ collectible h c = false).
      destruct (unicast r !! ip) as [conns |] eqn:Eip.
      + destruct (F ip conns) as [F1 _]; [apply elem_of_map_to_list; exact Eip |].
        rewrite F1, S1. unfold ulook. rewrite Eip. reflexivity.
      + unfold ulook. rewrite E, Eip.
        * split; [discriminate | intros [? _]; discriminate].
        * intros Hin. apply list_elem_of_fmap in Hin as ([ip' conns] & -> & Hin).
          apply elem_of_map_to_list in Hin. cbn [fst] in Eip. congruence. }
  destruct ((size g =? 0)%nat && (size u =? 0)%nat); cbn [fst].
  - rewrite at_slot_set_running. exact Hat.
  - exact Hat.
Qed.

(** X3: a tick of the garbage collector removes from the indices
    exactly the sockets for which [ShouldGarbageCollect] holds at the
    time of the tick: a socket is in a place after the tick if and only
    if it was there before and is not to be collected. *)
Theorem X3_gcTick_removes_exactly_collectible r (h : store) k c :
  at_slot (gcTick r h).1 k = Some c
  ↔ at_slot r k = Some c ∧ collectible h c = false.
Proof. apply gcTick_exact. Qed.

(** What a tick does to the sockets. *)
Lemma gcTick_store r (h : store) :
  (∀ x, collectible h x = false → (gcTick r h).2 !! x = h !! x)
  ∧ (∀ k c, at_slot r k = Some c → collectible h c = true →
            (gcTick r h).2 !! c = Close <$> h !! c)
  ∧ (∀ x, (gcTick r h).2 !! x = h !! x ∨ (gcTick r h).2 !! x = Close <$> h !! x).
Proof.
  unfold gcTick.
  destruct (gcConns_store (global r) h) as (S1 & S2 & S3 & S4).
  destruct (gcConns (global r) h) as [g h1]. cbn [fst snd] in *.
  destruct (gcUnicast_foldl_exact (map_to_list (unicast r)) (unicast r) h1
              (NoDup_fst_map_to_list _)) as (_ & B & C & D & _).
  destruct (foldl gcUnicast (unicast r, h1) (map_to_list (unicast r))) as [u h2].
  cbn [fst snd] in *.
  assert (Hsnd : ∀ (b : bool) (x y : reuse), (if b then x else y, h2).2 = h2)
    by (intros []; reflexivity).
  rewrite ?Hsnd. clear Hsnd.
  split; [| split].
  - intros x Hx. rewrite B by (rewrite S1; exact Hx). apply S2, Hx.
  - intros k c Hk Hc. destruct k as [port | ip port]; cbn [at_slot] in Hk.
    + pose proof (S4 port c Hk Hc) as Hh1.
      destruct (C c) as [-> | ->]; rewrite Hh1, ?fmap_Close_twice; reflexivity.
    + destruct (unicast r !! ip) as [conns |] eqn:Eip; [| discriminate].
      rewrite (D ip conns port c);
        [| apply elem_of_map_to_list; exact Eip | exact Hk | rewrite S1; exact Hc].
      destruct (S3 c) as [-> | ->]; rewrite ?fmap_Close_twice; reflexivity.
  - intros x. destruct (C x) as [-> | ->], (S3 x) as [-> | ->];
      rewrite ?fmap_Close_twice; tauto.
Qed.

(** X4: the only thing a tick does to a socket is to close it, it
    closes every socket it removes, and a socket that is not to be
    collected is left as it is; counts and idle timestamps never change. *)
Theorem X4_gcTick_closes_what_it_removes r (h : store) :
  (∀ x, collectible h x = false → (gcTick r h).2 !! x = h !! x)
  ∧ (∀ k c, at_slot r k = Some c → collectible h c = true →
            (gcTick r h).2 !! c = Close <$> h !! c)
  ∧ (∀ x, (gcTick r h).2 !! x = h !! x ∨ (gcTick r h).2 !! x = Close <$> h !! x).
Proof. apply gcTick_store. Qed.

(** After a tick no inner map of [unicast] is empty. *)
Lemma gcTick_inner_nonempty r (h : store) ip conns :
  unicast (gcTick r h).1 !! ip = Some conns → conns ≠ ∅.
Proof.
  unfold gcTick.
  destruct (gcConns (global r) h) as [g h1].
  destruct (gcUnicast_foldl_exact (map_to_list (unicast r)) (unicast r) h1
              (NoDup_fst_map_to_list _)) as (_ & _ & _ & _ & E & F).
  destruct (foldl gcUnicast (unicast r, h1) (map_to_list (unicast r))) as [u h2].
  cbn [fst snd] in *.
  assert (Hu : ∀ b : bool,
             unicast (if b then set_running false (set_unicast u (set_global g r))
                      else set_unicast u (set_global g r)) = u)
    by (intros []; reflexivity).
  cbn [fst]. rewrite Hu. intros Hip.
  destruct (unicast r !! ip) as [conns0 |] eqn:Eip.
  - destruct (F ip conns0) as [_ F2]; [apply elem_of_map_to_list; exact Eip |].
    exact (F2 conns Hip).
  - rewrite E, Eip in Hip; [discriminate |].
    intros Hin. apply list_elem_of_fmap in Hin as ([ip' conns'] & -> & Hin).
    apply elem_of_map_to_list in Hin. cbn [fst] in Eip. congruence.
Qed.

(** The flag after a tick. *)
Lemma gcTick_flag r (h : store) :
  (global (gcTick r h).1 = ∅ ∧ unicast (gcTick r h).1 = ∅ →
   garbageCollectorRunning (gcTick r h).1 = false)
  ∧ (¬ (global (gcTick r h).1 = ∅ ∧ unicast (gcTick r h).1 = ∅) →
     garbageCollectorRunning (gcTick r h).1 = garbageCollectorRunning r).
Proof.
  unfold gcTick.
  destruct (gcConns (global r) h) as [g h1].
  destruct (foldl gcUnicast (unicast r, h1) (map_to_list (unicast r))) as [u h2].
  destruct (Nat.eqb_spec (size g) 0) as [Hg | Hg],
           (Nat.eqb_spec (size u) 0) as [Hu | Hu]; cbn.
  - split; [reflexivity |]. intros Hn. exfalso. apply Hn.
    split; apply map_size_empty_iff; assumption.
  - split; [intros [_ Hu'] | reflexivity].
    apply map_size_empty_iff in Hu'. contradiction.
  - split; [intros [Hg' _] | reflexivity].
    apply map_size_empty_iff in Hg'. contradiction.
  - split; [intros [Hg' _] | reflexivity].
    apply map_size_empty_iff in Hg'. contradiction.
Qed.

(** X5: when every socket the pool tracks is to be collected, a tick
    empties both indices and clears [garbageCollectorRunning] (the
    goroutine returns); when some socket is not to be collected, the tick
    leaves the flag as it was. *)
Theorem X5_gcTick_stops_when_empty r (h : store) :
  ((∀ k c, at_slot r k = Some c → collectible h c = true) →
   global (gcTick r h).1 = ∅ ∧ unicast (gcTick r h).1 = ∅
   ∧ garbageCollectorRunning (gcTick r h).1 = false)
  ∧ (∀ k c, at_slot r k = Some c → collectible h c = false →
            garbageCollectorRunning (gcTick r h).1 = garbageCollectorRunning r).
Proof.
  destruct (gcTick_flag r h) as [Hstop Hgo].
  split.
  - intros Hall.
    assert (Hnone : ∀ k c, at_slot (gcTick r h).1 k ≠ Some c).
    { intros k c Hk. apply gcTick_exact in Hk as [Hk Hc].
      rewrite (Hall k c Hk) in Hc. discriminate. }
    assert (Hg : global (gcTick r h).1 = ∅).
    { apply map_empty. intros port.
      destruct (global (gcTick r h).1 !! port) as [c |] eqn:E; [| reflexivity].
      exfalso. exact (Hnone (InGlobal port) c E). }
    assert (Hu : unicast (gcTick r h).1 = ∅).
    { apply map_empty. intros ip.
      destruct (unicast (gcTick r h).1 !! ip) as [conns |] eqn:E; [| reflexivity].
      exfalso. pose proof (gcTick_inner_nonempty r h ip conns E) as Hne.
      apply map_choose in Hne as (port & c & Hc).
      apply (Hnone (InUnicast ip port) c). cbn [at_slot]. rewrite E. exact Hc. }
    split; [exact Hg |]. split; [exact Hu |]. apply Hstop. split; assumption.
  - intros k c Hk Hc. apply Hgo. intros [Hg Hu].
    assert (Hk' : at_slot (gcTick r h).1 k = Some c)
      by (apply gcTick_exact; split; assumption).
    destruct k as [port | ip port]; cbn [at_slot] in Hk'.
    + rewrite Hg, lookup_empty in Hk'. discriminate.
    + rewrite Hu, lookup_empty in Hk'. discriminate.
Qed.

End CollectorExact.

(** ** What [Listen] and [Dial] register *)

Section Registering.

Variable IP_String : IP → string.

(** What [Listen] registers, and where. *)
Lemma Listen_registers ListenUDP network laddr r (h : store) :
  match ListenUDP network (Some laddr) with
  | Err e => Listen IP_String ListenUDP network laddr r h = (Err e, (r, h))
  | Ok bound =>
      ∃ r',
        Listen IP_String ListenUDP network laddr r h
        = (Ok (alloc h), (r', <[alloc h := IncreaseCount (newReuseConn bound)]> h))
        ∧ h !! alloc h = None
        ∧ refCount (IncreaseCount (newReuseConn bound)) = 1
        ∧ (∀ k, at_slot r' k = if decide (k = slot_of IP_String bound)
                               then Some (alloc h) else at_slot r k)
        ∧ garbageCollectorRunning r' = true
        ∧ handle r' = handle r
  end.
Proof.
  unfold Listen, slot_of.
  destruct (ListenUDP network (Some laddr)) as [bound | e]; [| reflexivity].
  destruct (IsUnspecified (addrIP bound)); eexists;
    (split; [reflexivity |]); (split; [apply alloc_fresh |]);
    (split; [reflexivity |]).
  - split; [| split].
    + intros k. rewrite at_slot_insert_global.
      destruct (decide _); [reflexivity | apply at_slot_maybeStartGarbageCollector].
    + cbn. apply maybeStartGarbageCollector_running.
    + cbn. apply maybeStartGarbageCollector_handle.
  - split; [| split].
    + intros k.
      rewrite (at_slot_insert_unicast (maybeStartGarbageCollector r)
                 (IP_String (addrIP bound)) (Port bound) (alloc h) k).
      destruct (decide _); [reflexivity | apply at_slot_maybeStartGarbageCollector].
    + cbn. apply maybeStartGarbageCollector_running.
    + cbn. apply maybeStartGarbageCollector_handle.
Qed.

(** X6: a [Listen] whose bind fails changes nothing; one whose bind
    succeeds makes a new socket with count 1, puts it at the place of the
    address it got bound to ([global[port]] for a wildcard address,
    [unicast[ip][port]] otherwise), leaves every other place as it was,
    and has the collector running. *)
Theorem X6_Listen_registers ListenUDP network laddr r (h : store) :
  match ListenUDP network (Some laddr) with
  | Err e => Listen IP_String ListenUDP network laddr r h = (Err e, (r, h))
  | Ok bound =>
      ∃ r',
        Listen IP_String ListenUDP network laddr r h
        = (Ok (alloc h), (r', <[alloc h := IncreaseCount (newReuseConn bound)]> h))
        ∧ h !! alloc h = None
        ∧ refCount (IncreaseCount (newReuseConn bound)) = 1
        ∧ (∀ k, at_slot r' k = if decide (k = slot_of IP_String bound)
                               then Some (alloc h) else at_slot r k)
        ∧ garbageCollectorRunning r' = true
        ∧ handle r' = handle r
  end.
Proof. apply Listen_registers. Qed.

Lemma dialUnicast_Some seed u ips c :
  dialUnicast IP_String seed u ips = Some c →
  ∃ ip port conns, u !! IP_String ip = Some conns ∧ conns !! port = Some c.
Proof.
  induction ips as [| ip ips IH]; simpl; [discriminate |].
  destruct (u !! IP_String ip) as [conns |] eqn:E; [| exact IH].
  destruct (rangeFirst seed conns) as [[port c'] |] eqn:Er; [| exact IH].
  intros [= ->]. exists ip, port, conns. split; [exact E |].
  eapply rangeFirst_Some, Er.
Qed.

Lemma dialLocked_Ok_slot ListenUDP seed network raddr ips r (h : store) c r1 h1 :
  dialLocked IP_String ListenUDP seed network raddr ips r h = (Ok c, (r1, h1)) →
  ∃ k, at_slot r1 k = Some c.
Proof.
  unfold dialLocked.
  destruct (dialUnicast IP_String seed (unicast r) ips) as [c' |] eqn:Ed.
  { intros [= -> <- <-].
    destruct (dialUnicast_Some _ _ _ _ Ed) as (ip & port & conns & Hu & Hc).
    exists (InUnicast (IP_String ip) port). cbn. rewrite Hu. exact Hc. }
  destruct (rangeFirst seed (global r)) as [[port c'] |] eqn:Er.
  { intros [= -> <- <-]. exists (InGlobal port). eapply rangeFirst_Some, Er. }
  destruct (ListenUDP network (wildcardAddr network)) as [bound | e];
    [| discriminate].
  intros [= <- <- <-]. exists (InGlobal (Port bound)).
  cbn. apply lookup_insert_eq.
Qed.

Lemma collectible_after_IncreaseCount maxUnused now (h : store) c :
  collectible maxUnused now (alter IncreaseCount c h) c = false.
Proof.
  unfold collectible. rewrite lookup_alter_eq.
  destruct (h !! c); reflexivity.
Qed.

(** X7: the socket a [Dial] returns is in the indices of the pool, and a
    tick of the garbage collector right after the [Dial], at whatever
    time, neither removes nor closes it. *)
Theorem X7_Dial_socket_survives_tick
    RouteGet ListenUDP seed network raddr r (h : store) c r' h' :
  Dial IP_String RouteGet ListenUDP seed network raddr r h = (Ok c, (r', h')) →
  ∃ k, at_slot r' k = Some c
       ∧ ∀ maxUnused now,
           at_slot (gcTick maxUnused now r' h').1 k = Some c
           ∧ (gcTick maxUnused now r' h').2 !! c = h' !! c.
Proof.
  unfold Dial.
  destruct (getSourceIPs RouteGet r network raddr) as [ips | e]; [| discriminate].
  destruct (dialLocked IP_String ListenUDP seed network raddr ips r h)
    as [[c1 | e] [r1 h1]] eqn:Ed; [| discriminate].
  intros [= -> <- <-].
  destruct (dialLocked_Ok_slot _ _ _ _ _ _ _ _ _ _ Ed) as [k Hk].
  exists k. rewrite at_slot_maybeStartGarbageCollector.
  split; [exact Hk |]. intros maxUnused now.
  pose proof (collectible_after_IncreaseCount maxUnused now h1 c) as Hlive.
  split.
  - apply gcTick_exact.
    rewrite at_slot_maybeStartGarbageCollector. split; assumption.
  - apply gcTick_store. exact Hlive.
Qed.

End Registering.

Lemma X7_Dial_socket_survives_tick_witness :
  Dial dotted (route_via []) bind_any 0 "udp4" remote_1_1_1_1 (newReuse false) ∅
  = (Ok 1%positive,
     (maybeStartGarbageCollector (set_global {[5000 := 1%positive]} (newReuse false)),
      {[1%positive := IncreaseCount (newReuseConn {| addrIP := IPv4zero;
                                                    Port := 5000 |})]}))
  ∧ ∃ k, at_slot (maybeStartGarbageCollector
                    (set_global {[5000 := 1%positive]} (newReuse false))) k
         = Some 1%positive.
Proof.
  assert (HDial : Dial dotted (route_via []) bind_any 0 "udp4" remote_1_1_1_1
                       (newReuse false) ∅
                  = (Ok 1%positive,
                     (maybeStartGarbageCollector
                        (set_global {[5000 := 1%positive]} (newReuse false)),
                      {[1%positive := IncreaseCount
                           (newReuseConn {| addrIP := IPv4zero; Port := 5000 |})]})))
    by (vm_compute; reflexivity).
  split; [exact HDial |].
  destruct (X7_Dial_socket_survives_tick dotted _ _ _ _ _ _ _ _ _ _ HDial)
    as (k & Hk & _).
  exists k. exact Hk.
Defined.

(** ** The collector runs while the pool tracks a socket *)

Section Liveness.

Variable maxUnusedDuration : Duration.
Variable IP_String : IP → string.

Lemma pool_live_inv_new netlinkHandle : pool_live_inv (newReuse netlinkHandle).
Proof.
  split.
  - cbn. split; [discriminate | intros [? | ?]; contradiction].
  - cbn. intros ip conns. rewrite lookup_empty. discriminate.
Qed.

Lemma pool_live_inv_started r :
  (global r ≠ ∅ ∨ unicast r ≠ ∅) →
  (∀ ip conns, unicast r !! ip = Some conns → conns ≠ ∅) →
  pool_live_inv (maybeStartGarbageCollector r).
Proof.
  intros Hne Hin. split.
  - rewrite maybeStartGarbageCollector_running,
      maybeStartGarbageCollector_global, maybeStartGarbageCollector_unicast.
    tauto.
  - rewrite maybeStartGarbageCollector_unicast. exact Hin.
Qed.

Lemma Listen_keeps_live ListenUDP network laddr r (h : store) res r' h' :
  pool_live_inv r →
  Listen IP_String ListenUDP network laddr r h = (res, (r', h')) →
  pool_live_inv r'.
Proof.
  intros [Hflag Hin]. unfold Listen.
  destruct (ListenUDP network (Some laddr)) as [bound | e].
  2: { intros [= _ <- <-]. split; assumption. }
  destruct (IsUnspecified (addrIP bound)); intros [= _ <- <-]; split; cbn.
  - rewrite maybeStartGarbageCollector_running, maybeStartGarbageCollector_global.
    split; [| reflexivity]. intros _. left. apply insert_non_empty.
  - rewrite maybeStartGarbageCollector_unicast. exact Hin.
  - rewrite maybeStartGarbageCollector_running.
    split; [| reflexivity]. intros _. right. apply insert_non_empty.
  - rewrite maybeStartGarbageCollector_unicast.
    intros ip conns.
    destruct (decide (IP_String (addrIP bound) = ip)) as [<- | Hne].
    + rewrite lookup_insert_eq. intros [= <-]. apply insert_non_empty.
    + rewrite lookup_insert_ne by exact Hne.
      destruct (unicast r !! IP_String (addrIP bound)); [apply Hin |].
      rewrite lookup_insert_ne by exact Hne. apply Hin.
Qed.

Lemma Dial_keeps_live RouteGet ListenUDP seed network raddr r (h : store) res r' h' :
  pool_live_inv r →
  Dial IP_String RouteGet ListenUDP seed network raddr r h = (res, (r', h')) →
  pool_live_inv r'.
Proof.
  intros Hinv. unfold Dial.
  destruct (getSourceIPs RouteGet r network raddr) as [ips | e].
  2: { intros [= _ <- <-]. exact Hinv. }
  unfold dialLocked.
  destruct (dialUnicast IP_String seed (unicast r) ips) as [c |] eqn:Ed.
  { intros [= _ <- <-]. apply pool_live_inv_started; [| apply Hinv].
    destruct (dialUnicast_Some _ _ _ _ _ Ed) as (ip & port & conns & Hu & _).
    right. intros Hempty. rewrite Hempty, lookup_empty in Hu. discriminate. }
  destruct (rangeFirst seed (global r)) as [[port c] |] eqn:Er.
  { intros [= _ <- <-]. apply pool_live_inv_started; [| apply Hinv].
    apply rangeFirst_Some in Er.
    left. intros Hempty. rewrite Hempty, lookup_empty in Er. discriminate. }
  destruct (ListenUDP network (wildcardAddr network)) as [bound | e];
    intros [= _ <- <-]; [| exact Hinv].
  apply pool_live_inv_started; cbn; [| apply Hinv].
  left. apply insert_non_empty.
Qed.

Lemma gcTick_keeps_live now r (h : store) :
  garbageCollectorRunning r = true →
  pool_live_inv (gcTick maxUnusedDuration now r h).1.
Proof.
  intros Hrun. destruct (gcTick_flag maxUnusedDuration now r h) as [Hstop Hgo].
  split; [| apply gcTick_inner_nonempty].
  destruct (decide (global (gcTick maxUnusedDuration now r h).1 = ∅
                    ∧ unicast (gcTick maxUnusedDuration now r h).1 = ∅))
    as [Hempty | Hne].
  - rewrite (Hstop Hempty). destruct Hempty as [Hg Hu].
    split; [discriminate |]. intros [? | ?]; contradiction.
  - rewrite (Hgo Hne), Hrun. split; [| reflexivity]. intros _.
    destruct (decide (global (gcTick maxUnusedDuration now r h).1 = ∅));
      [right | left; assumption].
    intros Hu. apply Hne. split; assumption.
Qed.

Lemma reachable_live r h :
  reachable maxUnusedDuration IP_String r h → pool_live_inv r.
Proof.
  intros [netlinkHandle Hrtc].
  change (pool_live_inv (r, h).1).
  revert Hrtc. generalize (r, h).
  apply (rtc_ind_r (λ s : reuse * store, pool_live_inv s.1)).
  - apply pool_live_inv_new.
  - intros [r1 h1] [r2 h2] _ Hstep IH. cbn [fst] in *.
    inversion Hstep; subst.
    + eapply Listen_keeps_live; eassumption.
    + eapply Dial_keeps_live; eassumption.
    + match goal with
      | Hgc : gcTick _ ?now _ _ = _ |- _ =>
          pose proof (gcTick_keeps_live now r1 h1 ltac:(assumption)) as Hk;
          rewrite Hgc in Hk; exact Hk
      end.
    + exact IH.
Qed.

(** X8: in every state a pool can reach, [garbageCollectorRunning] is
    set if and only if the pool tracks a socket: [Listen] and [Dial]
    start the collector, and a tick stops it only when both indices are
    empty. *)
Theorem X8_collector_runs_iff_tracking r h :
  reachable maxUnusedDuration IP_String r h →
  (garbageCollectorRunning r = true ↔ global r ≠ ∅ ∨ unicast r ≠ ∅).
Proof. intros Hreach. exact (proj1 (reachable_live r h Hreach)). Qed.

(** X9: in every state a pool can reach, no inner map of [unicast] is
    empty, so that the presence of [unicast[ip]], which is all
    [dialLocked] tests, means there is a socket bound to [ip]. *)
Theorem X9_no_empty_inner_map r h ip conns :
  reachable maxUnusedDuration IP_String r h →
  unicast r !! ip = Some conns →
  ∃ port c, conns !! port = Some c.
Proof.
  intros Hreach Hip.
  apply map_choose. exact (proj2 (reachable_live r h Hreach) ip conns Hip).
Qed.

End Liveness.

Lemma X8_collector_runs_iff_tracking_witness :
  reachable defaultMaxUnusedDuration dotted pool_unicast.1 pool_unicast.2
  ∧ (garbageCollectorRunning pool_unicast.1 = true
     ↔ global pool_unicast.1 ≠ ∅ ∨ unicast pool_unicast.1 ≠ ∅).
Proof.
  exact (conj pool_unicast_reachable
              (X8_collector_runs_iff_tracking defaultMaxUnusedDuration dotted
                 pool_unicast.1 pool_unicast.2 pool_unicast_reachable)).
Defined.

Lemma X9_no_empty_inner_map_witness :
  reachable defaultMaxUnusedDuration dotted pool_unicast.1 pool_unicast.2
  ∧ unicast pool_unicast.1 !! "10.0.0.1" = Some {[4001 := 1%positive]}
  ∧ ∃ port c, ({[4001 := 1%positive]} : gmap Z loc) !! port = Some c.
Proof.
  assert (Hu : unicast pool_unicast.1 !! "10.0.0.1" = Some {[4001 := 1%positive]})
    by (vm_compute; reflexivity).
  exact (conj pool_unicast_reachable
           (conj Hu (X9_no_empty_inner_map defaultMaxUnusedDuration dotted
                       pool_unicast.1 pool_unicast.2 "10.0.0.1" _
                       pool_unicast_reachable Hu))).
Defined.

(** ** A listener's socket: dialing from it, and releasing it *)

Section ListenerSocket.

Variable maxUnusedDuration : Duration.
Variable IP_String : IP → string.

(** X10: when the pool has no other socket bound to the address a
    listener gets bound to, a unicast address, and that address is the
    first source address resolved for the remote, the [Dial] that follows
    the [Listen] returns the listener's socket, with count 2, whatever
    [global] holds. *)
Theorem X10_unicast_Listen_then_Dial ListenUDP network laddr r (h : store) bound
    RouteGet ListenUDP' seed network' raddr ip ips :
  ListenUDP network (Some laddr) = Ok bound →
  IsUnspecified (addrIP bound) = false →
  getSourceIPs RouteGet r network' raddr = Ok (ip :: ips) →
  IP_String ip = IP_String (addrIP bound) →
  (∀ port, port ≠ Port bound → ulook (unicast r) (IP_String ip) port = None) →
  ∃ c r1 h1 r2 h2,
    Listen IP_String ListenUDP network laddr r h = (Ok c, (r1, h1))
    ∧ at_slot r1 (InUnicast (IP_String ip) (Port bound)) = Some c
    ∧ refCount <$> h1 !! c = Some 1
    ∧ Dial IP_String RouteGet ListenUDP' seed network' raddr r1 h1
      = (Ok c, (r2, h2))
    ∧ refCount <$> h2 !! c = Some 2.
Proof.
  intros Hbind Hwild Hips Hkey Hother.
  unfold Listen. rewrite Hbind, Hwild. rewrite <- Hkey.
  set (c := alloc h). set (key := IP_String ip) in *.
  set (r0 := maybeStartGarbageCollector r).
  set (u := match unicast r0 !! key with
            | Some _ => unicast r0
            | None => <[key := ∅]> (unicast r0)
            end).
  set (h1 := <[c := _]> h).
  assert (Hinner : <[Port bound := c]> (default ∅ (u !! key))
                   = ({[Port bound := c]} : gmap Z loc)).
  { apply map_eq. intros port.
    destruct (decide (Port bound = port)) as [<- | Hne].
    - rewrite lookup_insert_eq, lookup_singleton_eq. reflexivity.
    - rewrite lookup_insert_ne, lookup_singleton_ne by exact Hne.
      specialize (Hother port ltac:(congruence)). unfold ulook in Hother.
      subst u r0. rewrite maybeStartGarbageCollector_unicast.
      destruct (unicast r !! key) as [conns |] eqn:E.
      + rewrite E. exact Hother.
      + rewrite lookup_insert_eq. simpl. apply lookup_empty. }
  rewrite Hinner.
  set (r1 := set_unicast _ r0).
  assert (Hu1 : unicast r1 !! key = Some {[Port bound := c]}).
  { subst r1. cbn. apply lookup_insert_eq. }
  assert (Hips1 : getSourceIPs RouteGet r1 network' raddr = Ok (ip :: ips)).
  { rewrite <- Hips. unfold getSourceIPs. subst r1 r0. cbn.
    rewrite maybeStartGarbageCollector_handle. reflexivity. }
  exists c, r1, h1. do 2 eexists.
  split; [reflexivity |].
  split; [cbn [at_slot]; rewrite Hu1; apply lookup_singleton_eq |].
  split; [subst h1; rewrite lookup_insert_eq; reflexivity |].
  unfold Dial. rewrite Hips1. unfold dialLocked. cbn [dialUnicast].
  fold key. rewrite Hu1, rangeFirst_singleton.
  split; [reflexivity |].
  subst h1. rewrite lookup_alter_eq, lookup_insert_eq. reflexivity.
Qed.

(** X11: a listener's socket released once, at instant [t0], is at
    count 0, idle since [t0]. A tick later than
    [t0 + maxUnusedDuration] removes it from the indices and closes it;
    a tick up to that instant leaves it where it is, open. *)
Theorem X11_released_listener_collected ListenUDP network laddr r (h : store)
    bound t0 now :
  ListenUDP network (Some laddr) = Ok bound →
  t0 ≠ 0 →
  ∃ r1 h1,
    Listen IP_String ListenUDP network laddr r h = (Ok (alloc h), (r1, h1))
    ∧ (t0 + maxUnusedDuration < now →
       at_slot (gcTick maxUnusedDuration now r1
                       (alter (DecreaseCount t0) (alloc h) h1)).1
               (slot_of IP_String bound) = None
       ∧ (gcTick maxUnusedDuration now r1
                 (alter (DecreaseCount t0) (alloc h) h1)).2 !! alloc h
         = Some {| LocalAddr := bound; closed := true;
                   refCount := 0; unusedSince := t0 |})
    ∧ (now ≤ t0 + maxUnusedDuration →
       at_slot (gcTick maxUnusedDuration now r1
                       (alter (DecreaseCount t0) (alloc h) h1)).1
               (slot_of IP_String bound) = Some (alloc h)
       ∧ (gcTick maxUnusedDuration now r1
                 (alter (DecreaseCount t0) (alloc h) h1)).2 !! alloc h
         = Some {| LocalAddr := bound; closed := false;
                   refCount := 0; unusedSince := t0 |}).
Proof.
  intros Hbind Ht0.
  pose proof (Listen_registers IP_String ListenUDP network laddr r h) as HL.
  rewrite Hbind in HL. destruct HL as (r1 & HL & _ & _ & Hat & _).
  exists r1, (<[alloc h := IncreaseCount (newReuseConn bound)]> h).
  split; [exact HL |].
  set (c := alloc h) in *.
  set (h2 := alter (DecreaseCount t0) c _).
  assert (Hc : h2 !! c = Some {| LocalAddr := bound; closed := false;
                                 refCount := 0; unusedSince := t0 |}).
  { subst h2. rewrite lookup_alter_eq, lookup_insert_eq. reflexivity. }
  assert (Hslot : at_slot r1 (slot_of IP_String bound) = Some c).
  { rewrite Hat. destruct (decide _); [reflexivity | contradiction]. }
  assert (Hcol : collectible maxUnusedDuration now h2 c
                 = (t0 + maxUnusedDuration <? now)).
  { unfold collectible. rewrite Hc. unfold ShouldGarbageCollect, IsZero, Before, Add.
    cbn. destruct (Z.eqb_spec t0 0); [contradiction | reflexivity]. }
  split.
  - intros Hlate. apply Z.ltb_lt in Hlate. rewrite Hlate in Hcol. split.
    + destruct (at_slot (gcTick maxUnusedDuration now r1 h2).1
                        (slot_of IP_String bound)) as [c' |] eqn:E; [| reflexivity].
      apply gcTick_exact in E as [E1 E2].
      assert (c' = c) by congruence. subst c'. congruence.
    + rewrite (proj1 (proj2 (gcTick_store
                               maxUnusedDuration now r1 h2)) _ c Hslot Hcol).
      rewrite Hc. reflexivity.
  - intros Hearly. apply Z.ltb_ge in Hearly. rewrite Hearly in Hcol. split.
    + apply gcTick_exact. split; assumption.
    + rewrite (proj1 (gcTick_store
                        maxUnusedDuration now r1 h2) c Hcol).
      exact Hc.
Qed.

End ListenerSocket.

Lemma X10_unicast_Listen_then_Dial_witness :
  bind_any "udp4" (Some {| addrIP := IPv4 10 0 0 1; Port := 4001 |})
  = Ok {| addrIP := IPv4 10 0 0 1; Port := 4001 |}
  ∧ IsUnspecified (IPv4 10 0 0 1) = false
  ∧ ∃ c r1 h1 r2 h2,
      Listen dotted bind_any "udp4" {| addrIP := IPv4 10 0 0 1; Port := 4001 |}
             (newReuse true) ∅ = (Ok c, (r1, h1))
      ∧ at_slot r1 (InUnicast (dotted (IPv4 10 0 0 1)) 4001) = Some c
      ∧ refCount <$> h1 !! c = Some 1
      ∧ Dial dotted (route_via [IPv4 10 0 0 1]) bind_any 0 "udp4" remote_1_1_1_1
             r1 h1 = (Ok c, (r2, h2))
      ∧ refCount <$> h2 !! c = Some 2.
Proof.
  split; [reflexivity |]. split; [reflexivity |].
  refine (X10_unicast_Listen_then_Dial dotted bind_any "udp4"
            {| addrIP := IPv4 10 0 0 1; Port := 4001 |} (newReuse true) ∅
            {| addrIP := IPv4 10 0 0 1; Port := 4001 |}
            (route_via [IPv4 10 0 0 1]) bind_any 0%nat "udp4" remote_1_1_1_1
            (IPv4 10 0 0 1) [] eq_refl eq_refl eq_refl eq_refl _).
  intros port _. reflexivity.
Defined.

Lemma X11_released_listener_collected_witness :
  bind_any "udp4" (Some {| addrIP := IPv4zero; Port := 0 |})
  = Ok {| addrIP := IPv4zero; Port := 5000 |}
  ∧ 50 ≠ 0
  ∧ ∃ r1 h1,
      Listen dotted bind_any "udp4" {| addrIP := IPv4zero; Port := 0 |}
             (newReuse false) ∅ = (Ok (alloc ∅), (r1, h1))
      ∧ at_slot (gcTick 10 100 r1 (alter (DecreaseCount 50) (alloc ∅) h1)).1
                (InGlobal 5000) = None.
Proof.
  split; [reflexivity |]. split; [discriminate |].
  destruct (X11_released_listener_collected 10 dotted bind_any "udp4"
              {| addrIP := IPv4zero; Port := 0 |} (newReuse false) ∅
              {| addrIP := IPv4zero; Port := 5000 |} 50 100 eq_refl
              ltac:(discriminate)) as (r1 & h1 & HL & Hlate & _).
  exists r1, h1. split; [exact HL |].
  exact (proj1 (Hlate ltac:(reflexivity))).
Defined.

(** ** What a [Dial] does to the sockets *)

Section DialStore.

Variable IP_String : IP → string.

Lemma Dial_store RouteGet ListenUDP seed network raddr r (h : store) c r' h' :
  Dial IP_String RouteGet ListenUDP seed network raddr r h = (Ok c, (r', h')) →
  ((∃ k, at_slot r k = Some c) ∧ h' = alter IncreaseCount c h)
  ∨ (h !! c = None
     ∧ ∃ bound, h' = <[c := IncreaseCount (newReuseConn bound)]> h).
Proof.
  unfold Dial.
  destruct (getSourceIPs RouteGet r network raddr) as [ips | e]; [| discriminate].
  unfold dialLocked.
  destruct (dialUnicast IP_String seed (unicast r) ips) as [c1 |] eqn:Ed.
  { intros [= -> <- <-]. left. split; [| reflexivity].
    destruct (dialUnicast_Some _ _ _ _ _ Ed) as (ip & port & conns & Hu & Hc).
    exists (InUnicast (IP_String ip) port). cbn. rewrite Hu. exact Hc. }
  destruct (rangeFirst seed (global r)) as [[port c1] |] eqn:Er.
  { intros [= -> <- <-]. left. split; [| reflexivity].
    exists (InGlobal port). eapply rangeFirst_Some, Er. }
  destruct (ListenUDP network (wildcardAddr network)) as [bound | e];
    [| discriminate].
  intros [= <- <- <-]. right. split; [apply alloc_fresh |].
  exists bound. apply alter_insert_eq.
Qed.

(** X12: on a pool whose indices hold existing sockets only, a [Dial]
    that succeeds raises the count of the socket it returns by one and
    clears its idle timestamp, or, when the socket is new, makes it with
    count 1; it changes no other socket. *)
Theorem X12_Dial_counts RouteGet ListenUDP seed network raddr r (h : store) c r' h' :
  pool_inv r h →
  Dial IP_String RouteGet ListenUDP seed network raddr r h = (Ok c, (r', h')) →
  match h !! c with
  | Some x => h' !! c = Some (IncreaseCount x)
  | None => ∃ bound, h' !! c = Some {| LocalAddr := bound; closed := false;
                                      refCount := 1; unusedSince := 0 |}
  end
  ∧ ∀ l, l ≠ c → h' !! l = h !! l.
Proof.
  intros [_ Hex] HDial.
  destruct (Dial_store _ _ _ _ _ _ _ _ _ _ HDial)
    as [[[k Hk] ->] | (Hnew & bound & ->)].
  - split.
    + rewrite lookup_alter_eq. destruct (Hex k c Hk) as [x ->]. reflexivity.
    + intros l Hne. apply lookup_alter_ne. congruence.
  - rewrite Hnew. split.
    + exists bound. rewrite lookup_insert_eq. reflexivity.
    + intros l Hne. apply lookup_insert_ne. congruence.
Qed.

End DialStore.

Lemma X12_Dial_counts_witness :
  pool_inv pool_unicast_global.1 pool_unicast_global.2
  ∧ Dial dotted (route_via []) bind_any 0 "udp4" remote_1_1_1_1
         pool_unicast_global.1 pool_unicast_global.2
    = (Ok 2%positive,
       (pool_unicast_global.1, alter IncreaseCount 2%positive pool_unicast_global.2))
  ∧ refCount <$> alter IncreaseCount 2%positive pool_unicast_global.2 !! 2%positive
    = Some 2
  ∧ alter IncreaseCount 2%positive pool_unicast_global.2 !! 1%positive
    = pool_unicast_global.2 !! 1%positive.
Proof.
  assert (Hreach : reachable defaultMaxUnusedDuration dotted
                     pool_unicast_global.1 pool_unicast_global.2).
  { destruct pool_unicast_reachable as [hd Hrtc]. exists hd.
    eapply rtc_r; [exact Hrtc |].
    eapply (step_Listen _ dotted bind_any "udp4"
              {| addrIP := IPv4zero; Port := 0 |} _ _ (Ok 2%positive)).
    vm_compute. reflexivity. }
  pose proof (reachable_inv _ _ _ _ Hreach) as Hinv.
  assert (HDial : Dial dotted (route_via []) bind_any 0 "udp4" remote_1_1_1_1
                       pool_unicast_global.1 pool_unicast_global.2
                  = (Ok 2%positive,
                     (pool_unicast_global.1,
                      alter IncreaseCount 2%positive pool_unicast_global.2)))
    by (vm_compute; reflexivity).
  destruct (X12_Dial_counts dotted _ _ _ _ _ _ _ _ _ _ Hinv HDial) as [Hc Hothers].
  split; [exact Hinv |]. split; [exact HDial |]. split.
  - change (pool_unicast_global.2 !! 2%positive)
      with (Some (IncreaseCount (newReuseConn {| addrIP := IPv4zero; Port := 5000 |})))
      in Hc.
    rewrite Hc. reflexivity.
  - apply Hothers. discriminate.
Defined.

(** ** The connection manager *)

Section ConnManagerProperties.

Variable IP_String : IP → string.

Lemma getReuse_Ok network f :
  getReuse network = Ok f
  ↔ (network = "udp4" ∧ f = UDP4) ∨ (network = "udp6" ∧ f = UDP6).
Proof.
  unfold getReuse.
  destruct (String.eqb_spec network "udp4") as [-> | N4].
  { split; [intros [= <-]; tauto | intros [[_ ->] | [[=] _]]; reflexivity]. }
  destruct (String.eqb_spec network "udp6") as [-> | N6].
  { split; [intros [= <-]; tauto | intros [[[=] _] | [_ ->]]; reflexivity]. }
  split; [discriminate | intros [[-> _] | [-> _]]; contradiction].
Qed.

Lemma set_pool_same f c : set_pool f (pool f c) c = c.
Proof. destruct c, f; reflexivity. Qed.

(** X13: with reuse enabled, a network that is neither "udp4" nor
    "udp6" makes [Listen] and [Dial] of the connection manager fail with
    the invalid-network error, whatever the operating system would
    answer, and nothing is changed. *)
Theorem X13_invalid_network RouteGet ListenUDP seed network addr c (h : store) :
  reuseportEnable c = true →
  network ≠ "udp4" → network ≠ "udp6" →
  cm_Listen IP_String ListenUDP network addr c h
  = (Err "invalid network: must be either udp4 or udp6", (c, h))
  ∧ cm_Dial IP_String RouteGet ListenUDP seed network addr c h
    = (Err "invalid network: must be either udp4 or udp6", (c, h)).
Proof.
  intros Hen N4 N6. unfold cm_Listen, cm_Dial, getReuse. rewrite Hen.
  destruct (String.eqb_spec network "udp4"); [contradiction |].
  destruct (String.eqb_spec network "udp6"); [contradiction |].
  split; reflexivity.
Qed.

(** X14: with reuse disabled, [Listen] and [Dial] of the connection
    manager leave both pools and every counted socket as they are, and
    the socket they return is one whose [IncreaseCount] and
    [DecreaseCount] do nothing. *)
Theorem X14_reuse_disabled RouteGet ListenUDP seed network addr c (h : store) :
  reuseportEnable c = false →
  (cm_Listen IP_String ListenUDP network addr c h).2 = (c, h)
  ∧ (cm_Dial IP_String RouteGet ListenUDP seed network addr c h).2 = (c, h)
  ∧ ∀ pc,
      (cm_Listen IP_String ListenUDP network addr c h).1 = Ok pc
      ∨ (cm_Dial IP_String RouteGet ListenUDP seed network addr c h).1 = Ok pc →
      ∀ now (h' : store),
        pIncreaseCount pc h' = h' ∧ pDecreaseCount now pc h' = h'.
Proof.
  intros Hen. unfold cm_Listen, cm_Dial. rewrite Hen.
  destruct (ListenUDP network (Some addr)) as [a1 | e1],
           (ListenUDP network (wildcardAddr network)) as [a2 | e2]; cbn;
    (split; [reflexivity |]); (split; [reflexivity |]);
    intros pc [[=] | [=]]; subst; intros; split; reflexivity.
Qed.

(** X15: [Listen] and [Dial] of the connection manager work on the pool
    of the family asked for: the pool of the other family and
    [reuseportEnable] are as before. *)
Theorem X15_other_family_untouched RouteGet ListenUDP seed network addr c (h : store) :
  let cl := (cm_Listen IP_String ListenUDP network addr c h).2.1 in
  let cd := (cm_Dial IP_String RouteGet ListenUDP seed network addr c h).2.1 in
  (network ≠ "udp4" → reuseUDP4 cl = reuseUDP4 c ∧ reuseUDP4 cd = reuseUDP4 c)
  ∧ (network ≠ "udp6" → reuseUDP6 cl = reuseUDP6 c ∧ reuseUDP6 cd = reuseUDP6 c)
  ∧ reuseportEnable cl = reuseportEnable c
  ∧ reuseportEnable cd = reuseportEnable c.
Proof.
  cbn zeta. unfold cm_Listen, cm_Dial.
  destruct (reuseportEnable c) eqn:Hen.
  2: { destruct (ListenUDP network (Some addr)),
                (ListenUDP network (wildcardAddr network)); cbn;
         rewrite ?Hen; tauto. }
  destruct (getReuse network) as [f |] eqn:Ef.
  2: { cbn. rewrite ?Hen. tauto. }
  apply getReuse_Ok in Ef.
  destruct (Listen IP_String ListenUDP network addr (pool f c) h)
    as [[l1 | e1] [r1 h1]],
    (Dial IP_String RouteGet ListenUDP seed network addr (pool f c) h)
    as [[l2 | e2] [r2 h2]];
    destruct Ef as [[-> ->] | [-> ->]]; cbn; rewrite ?Hen;
    repeat split; try reflexivity; intros; congruence.
Qed.

(** What [connManager.Dial] does to the sockets when it returns a
    counted socket that existed. *)
Lemma cm_Dial_acquires RouteGet ListenUDP seed network raddr c (h : store) l c' h' x :
  cm_Dial IP_String RouteGet ListenUDP seed network raddr c h
  = (Ok (ReuseConn l), (c', h')) →
  h !! l = Some x →
  h' = alter IncreaseCount l h.
Proof.
  unfold cm_Dial. destruct (reuseportEnable c).
  2: { destruct (ListenUDP network (wildcardAddr network)); discriminate. }
  destruct (getReuse network) as [f |]; [| discriminate].
  destruct (Dial IP_String RouteGet ListenUDP seed network raddr (pool f c) h)
    as [[l1 | e] [r1 h1]] eqn:Ed; [| discriminate].
  intros [= -> <- <-] Hl.
  destruct (Dial_store _ _ _ _ _ _ _ _ _ _ _ Ed) as [[_ ->] | (Hnew & _)].
  - reflexivity.
  - congruence.
Qed.

End ConnManagerProperties.

Lemma X13_invalid_network_witness :
  reuseportEnable (newConnManager false true) = true
  ∧ "tcp" ≠ "udp4" ∧ "tcp" ≠ "udp6"
  ∧ cm_Dial dotted (route_via []) bind_any 0 "tcp" remote_1_1_1_1
            (newConnManager false true) ∅
    = (Err "invalid network: must be either udp4 or udp6",
       (newConnManager false true, ∅)).
Proof.
  split; [reflexivity |]. split; [discriminate |]. split; [discriminate |].
  exact (proj2 (X13_invalid_network dotted (route_via []) bind_any 0%nat "tcp"
                  remote_1_1_1_1 (newConnManager false true) ∅ eq_refl
                  ltac:(discriminate) ltac:(discriminate))).
Defined.

Lemma X14_reuse_disabled_witness :
  reuseportEnable (newConnManager false false) = false
  ∧ (cm_Dial dotted (route_via []) bind_any 0 "udp4" remote_1_1_1_1
             (newConnManager false false) ∅).2
    = (newConnManager false false, ∅).
Proof.
  split; [reflexivity |].
  exact (proj1 (proj2 (X14_reuse_disabled dotted (route_via []) bind_any 0%nat
                         "udp4" remote_1_1_1_1 (newConnManager false false) ∅
                         eq_refl))).
Defined.

(** ** The calls a [transport.Dial] makes *)

Section DialCalls.

Variable IP_String : IP → string.
Variable UDPAddr_String : UDPAddr → string.
Variable toQuicMultiaddr : UDPAddr → result multiaddr.

Local Abbreviation transport_Dial :=
  (transport_Dial IP_String UDPAddr_String toQuicMultiaddr).

(** X16: a [Dial] that is not handed to the hole punch comes to an end
    and has made one of four sequences of calls: none, when no socket was
    obtained; one [DecreaseCount] on the socket, and an error; the spawn
    of one watcher for the session, and the connection; or the spawn of
    the watcher, then [CloseWithError] on the session, and an error. So
    the count taken is given back at once or left to one watcher, never
    both, and a connection is returned only with its watcher. *)
Theorem X16_Dial_call_sequences env p t :
  fst (d_SimultaneousConnect env) && negb (snd (d_SimultaneousConnect env)) = false →
  ∃ out t',
    transport_Dial env p t = Some (out, t')
    ∧ ((calls t' = calls t ∧ ∃ e, out = Returned (Err e))
       ∨ ∃ pconn,
           (calls t' = calls t ++ [EvDecreaseCount pconn]
            ∧ ∃ e, out = Returned (Err e))
           ∨ (∃ s, calls t' = calls t ++ [EvWatch s pconn]
                   ∧ (out = Panicked
                      ∨ ∃ conn, out = Returned (Ok conn) ∧ sess conn = s))
           ∨ (∃ s code msg,
                calls t' = calls t ++ [EvWatch s pconn; EvCloseWithError s code msg]
                ∧ ∃ e, out = Returned (Err e))).
Proof.
  intros HSim. unfold transport_Dial.
  destruct (d_DialArgs env) as [[network host] | e]; [| eauto 10].
  destruct (d_ResolveUDPAddr env) as [addr | e]; [| eauto 10].
  destruct (toQuicMultiaddr addr) as [remote | e]; [| eauto 10].
  rewrite HSim.
  destruct (cm_Dial _ _ _ _ _ _ _ _) as [[pconn | e] [c h]]; [| eauto 10].
  destruct (d_quicDialContext env) as [s | e].
  2: { do 2 eexists. split; [reflexivity |]. right. exists pconn. left.
       split; [reflexivity | eauto]. }
  destruct (d_keyCh env) as [key |].
  2: { do 2 eexists. split; [reflexivity |]. right. exists pconn. left.
       split; [reflexivity | eauto]. }
  cbn zeta.
  destruct (pLocalAddr pconn _) as [laddr |].
  2: { do 2 eexists. split; [reflexivity |]. right. exists pconn. right. left.
       exists s. split; [reflexivity | left; reflexivity]. }
  destruct (toQuicMultiaddr laddr) as [localMa | e].
  2: { do 2 eexists. split; [reflexivity |]. right. exists pconn. right. right.
       exists s, 0, "". cbn. rewrite <- app_assoc. split; [reflexivity | eauto]. }
  destruct (gater _ && negb (d_InterceptSecured env)).
  - do 2 eexists. split; [reflexivity |]. right. exists pconn. right. right.
    exists s, errorCodeConnectionGating, "connection gated".
    cbn. rewrite <- app_assoc. split; [reflexivity | eauto].
  - do 2 eexists. split; [reflexivity |]. right. exists pconn. right. left.
    exists s. split; [reflexivity |]. right. eexists. split; reflexivity.
Qed.

(** X17: a [Dial] that is not handed to the hole punch returns a
    connection only when the handshake gave a session, the key channel
    held a key and the gater, if there is one, accepted; the connection
    is for that session, that key and the peer asked for. *)
Theorem X17_Dial_connection env p t conn t' :
  fst (d_SimultaneousConnect env) && negb (snd (d_SimultaneousConnect env)) = false →
  transport_Dial env p t = Some (Returned (Ok conn), t') →
  d_quicDialContext env = Ok (sess conn)
  ∧ d_keyCh env = Some (remotePubKey conn)
  ∧ remotePeerID conn = p
  ∧ (gater t = true → d_InterceptSecured env = true)
  ∧ releases (calls t') = releases (calls t).
Proof.
  intros HSim. unfold transport_Dial.
  destruct (d_DialArgs env) as [[network host] | e]; [| discriminate].
  destruct (d_ResolveUDPAddr env) as [addr | e]; [| discriminate].
  destruct (toQuicMultiaddr addr) as [remote | e]; [| discriminate].
  rewrite HSim.
  destruct (cm_Dial _ _ _ _ _ _ _ _) as [[pconn | e] [c h]]; [| discriminate].
  destruct (d_quicDialContext env) as [s | e]; [| discriminate].
  destruct (d_keyCh env) as [key |]; [| discriminate].
  cbn zeta.
  destruct (pLocalAddr pconn _) as [laddr |]; [| discriminate].
  destruct (toQuicMultiaddr laddr) as [localMa | e]; [| discriminate].
  cbn [gater call set_pools].
  destruct (gater t) eqn:Eg, (d_InterceptSecured env) eqn:Ei; cbn [andb negb];
    try discriminate; intros [= <- <-]; cbn;
    rewrite releases_app; cbn; repeat split; try reflexivity;
    try (intros; congruence); lia.
Qed.

(** X18: when the handshake fails on a counted socket that existed
    before the [Dial], the [Dial] returns the error of the handshake and
    the count of the socket is what it was before the [Dial]. *)
Theorem X18_failed_handshake_count env p t network host addr remote l c h x e :
  d_DialArgs env = Ok (network, host) →
  d_ResolveUDPAddr env = Ok addr →
  toQuicMultiaddr addr = Ok remote →
  fst (d_SimultaneousConnect env) && negb (snd (d_SimultaneousConnect env)) = false →
  cm_Dial IP_String (p_RouteGet (d_punch env)) (p_ListenUDP (d_punch env))
          (p_seed (d_punch env)) network addr (connMgr t) (conns t)
  = (Ok (ReuseConn l), (c, h)) →
  conns t !! l = Some x →
  - 2 ^ 63 ≤ refCount x < 2 ^ 63 - 1 →
  d_quicDialContext env = Err e →
  ∃ t',
    transport_Dial env p t = Some (Returned (Err e), t')
    ∧ refCount <$> conns t' !! l = Some (refCount x)
    ∧ ∀ l', l' ≠ l → conns t' !! l' = conns t !! l'.
Proof.
  intros HArgs HResolve HRemote HSim HDial Hx Hrange HQuic.
  unfold transport_Dial.
  rewrite HArgs, HResolve, HRemote, HSim, HDial, HQuic.
  eexists. split; [reflexivity |].
  rewrite (cm_Dial_acquires _ _ _ _ _ _ _ _ _ _ _ _ HDial Hx).
  cbn [release call set_pools conns pDecreaseCount].
  split.
  - rewrite !lookup_alter_eq, Hx.
    change (Some (refCount (DecreaseCount (d_now env) (IncreaseCount x)))
            = Some (refCount x)).
    rewrite DecreaseCount_IncreaseCount by exact Hrange. reflexivity.
  - intros l' Hne. rewrite !lookup_alter_ne by congruence. reflexivity.
Qed.

End DialCalls.

Lemma X16_Dial_call_sequences_witness :
  fst (d_SimultaneousConnect dial_with_key)
  && negb (snd (d_SimultaneousConnect dial_with_key)) = false
  ∧ ∃ out t',
      transport_Dial dotted addr_string quic_multiaddr dial_with_key "peer"
                     listening_transport = Some (out, t').
Proof.
  split; [reflexivity |].
  destruct (X16_Dial_call_sequences dotted addr_string quic_multiaddr
              dial_with_key "peer" listening_transport eq_refl)
    as (out & t' & H & _).
  exists out, t'. exact H.
Defined.

Lemma X17_Dial_connection_witness :
  fst (d_SimultaneousConnect dial_with_key)
  && negb (snd (d_SimultaneousConnect dial_with_key)) = false
  ∧ ∃ conn t',
      transport_Dial dotted addr_string quic_multiaddr dial_with_key "peer"
                     listening_transport = Some (Returned (Ok conn), t')
      ∧ d_keyCh dial_with_key = Some (remotePubKey conn)
      ∧ remotePeerID conn = "peer".
Proof.
  split; [reflexivity |].
  assert (H : ∃ conn t',
             transport_Dial dotted addr_string quic_multiaddr dial_with_key "peer"
                            listening_transport = Some (Returned (Ok conn), t'))
    by (vm_compute; do 2 eexists; reflexivity).
  destruct H as (conn & t' & H). exists conn, t'.
  destruct (X17_Dial_connection dotted addr_string quic_multiaddr dial_with_key
              "peer" listening_transport conn t' eq_refl H) as (_ & Hk & Hp & _).
  exact (conj H (conj Hk Hp)).
Defined.

Lemma X18_failed_handshake_count_witness :
  d_quicDialContext dial_handshake_fails = Err "handshake failed"
  ∧ refCount <$> conns listening_transport !! 1%positive = Some 1
  ∧ ∃ t',
      transport_Dial dotted addr_string quic_multiaddr dial_handshake_fails "peer"
                     listening_transport
      = Some (Returned (Err "handshake failed"), t')
      ∧ refCount <$> conns t' !! 1%positive = Some 1.
Proof.
  split; [reflexivity |]. split; [vm_compute; reflexivity |].
  assert (HDial : cm_Dial dotted (route_via []) bind_any 0 "udp4" remote_1_1_1_1
                          (connMgr listening_transport) (conns listening_transport)
                  = (Ok (ReuseConn 1),
                     (set_pool UDP4 (reuseUDP4 (connMgr listening_transport))
                               (connMgr listening_transport),
                      alter IncreaseCount 1%positive (conns listening_transport))))
    by (vm_compute; reflexivity).
  assert (Hx : conns listening_transport !! 1%positive
               = Some (IncreaseCount (newReuseConn {| addrIP := IPv4zero;
                                                     Port := 5000 |})))
    by (vm_compute; reflexivity).
  destruct (X18_failed_handshake_count dotted addr_string quic_multiaddr
              dial_handshake_fails "peer" listening_transport
              "udp4" "1.1.1.1:1234" remote_1_1_1_1 "/ip4/1.1.1.1/udp/1234/quic"
              1%positive _ _ _ "handshake failed"
              eq_refl eq_refl ltac:(vm_compute; reflexivity) eq_refl HDial Hx
              ltac:(vm_compute; split; [discriminate | reflexivity]) eq_refl)
    as (t' & H & Hc & _).
  exists t'. exact (conj H Hc).
Defined.

(** ** What a hole punch leaves behind *)

Lemma punchLoop_return pconn addr script i conn evs :
  punchLoop pconn addr i script = Some (ExitReturn conn, evs) →
  ∃ a, a ∈ script ∧ a_select a = RecvConn conn.
Proof.
  revert i evs. induction script as [| a script IH]; intros i evs; simpl.
  - discriminate.
  - destruct (a_randRead a); [discriminate |].
    destruct (a_WriteTo a); [discriminate |].
    destruct (sleepDuration i (a_Intn a)); [| discriminate].
    destruct (a_select a) as [c | |] eqn:Es.
    + intros [= <- _]. exists a. split; [left | exact Es].
    + destruct (punchLoop pconn addr (wrap64 (i + 1)) script)
        as [[ex evs'] |] eqn:E; [| discriminate].
      intros [= -> _]. destruct (IH _ _ E) as (b & Hb & Hs).
      exists b. split; [right; exact Hb | exact Hs].
    + discriminate.
Qed.

Lemma sleepDuration_bounds i raw :
  0 ≤ i → 10 * (i + 1) * (i + 1) < 2 ^ 63 →
  ∃ d, sleepDuration i raw = Some d
       ∧ 10 * Millisecond ≤ d ≤ 209 * Millisecond.
Proof.
  intros Hi Hfit. pose proof (maxSleep_bounds i Hi Hfit) as Hb.
  eexists. split; [apply sleepDuration_draw; lia |].
  pose proof (Z.mod_pos_bound raw (maxSleep i) ltac:(lia)).
  unfold Millisecond. lia.
Qed.

(** Within the indices whose square fits, the loop does not panic, and
    every timer it arms is for 10 ms to 209 ms. *)
Lemma punchLoop_timers pconn addr script i ex evs :
  0 ≤ i →
  10 * (i + Z.of_nat (length script) + 1) * (i + Z.of_nat (length script) + 1)
  < 2 ^ 63 →
  punchLoop pconn addr i script = Some (ex, evs) →
  ex ≠ ExitPanic
  ∧ ∀ d, EvTimer d ∈ evs → 10 * Millisecond ≤ d ≤ 209 * Millisecond.
Proof.
  revert i ex evs. induction script as [| a script IH]; intros i ex evs Hi Hfit.
  - discriminate.
  - simpl length in Hfit. rewrite Nat2Z.inj_succ in Hfit. simpl.
    assert (Hnone : ∀ d, EvTimer d ∈ ([] : list event) → 10 * Millisecond ≤ d ≤ 209 * Millisecond)
      by (intros d Hd; apply elem_of_nil in Hd; contradiction).
    destruct (a_randRead a); [intros [= <- <-]; split; [discriminate | exact Hnone] |].
    destruct (a_WriteTo a); [intros [= <- <-]; split; [discriminate | exact Hnone] |].
    assert (Hfit_i : 10 * (i + 1) * (i + 1) < 2 ^ 63) by nia.
    destruct (sleepDuration_bounds i (a_Intn a) Hi Hfit_i) as (d0 & Hd0 & Hrange).
    rewrite Hd0.
    assert (Hhead : ∀ d, EvTimer d ∈ [EvWriteTo pconn addr; EvTimer d0] →
                         10 * Millisecond ≤ d ≤ 209 * Millisecond).
    { intros d Hd. apply elem_of_cons in Hd as [[=] | Hd].
      apply list_elem_of_singleton in Hd. injection Hd as ->. exact Hrange. }
    destruct (a_select a).
    + intros [= <- <-]. split; [discriminate | exact Hhead].
    + destruct (punchLoop pconn addr (wrap64 (i + 1)) script)
        as [[ex' evs'] |] eqn:E; [| discriminate].
      intros [= <- <-].
      rewrite (wrap64_small (i + 1)) in E by nia.
      destruct (IH (i + 1) ex' evs') as [Hex Hevs]; [lia | | exact E |].
      { replace (i + 1 + Z.of_nat (length script) + 1)
          with (i + Z.succ (Z.of_nat (length script)) + 1) by lia.
        exact Hfit. }
      split; [exact Hex |].
      intros d Hd. change (EvTimer d ∈ [EvWriteTo pconn addr; EvTimer d0] ++ evs') in Hd.
      apply elem_of_app in Hd as [Hd | Hd]; [apply Hhead, Hd | apply Hevs, Hd].
    + intros [= <- <-]. split; [discriminate | exact Hhead].
Qed.

Lemma punchLoop_send_error pconn addr pre a post e i :
  Forall (λ b, goes_on b = true) pre →
  0 ≤ i →
  10 * (i + Z.of_nat (length pre) + 1) * (i + Z.of_nat (length pre) + 1) < 2 ^ 63 →
  a_randRead a = Some e ∨ (a_randRead a = None ∧ a_WriteTo a = Some e) →
  ∃ evs, punchLoop pconn addr i (pre ++ a :: post) = Some (ExitBreak e, evs).
Proof.
  intros Hpre. revert i. induction Hpre as [| b pre Hb _ IH]; intros i Hi Hfit Ha.
  - simpl. destruct Ha as [-> | [-> ->]]; eauto.
  - simpl length in Hfit. rewrite Nat2Z.inj_succ in Hfit. simpl.
    unfold goes_on in Hb.
    destruct (a_randRead b); [discriminate |].
    destruct (a_WriteTo b); [discriminate |].
    destruct (a_select b); try discriminate.
    destruct (sleepDuration_defined i (a_Intn b) Hi) as [d ->]; [nia |].
    rewrite (wrap64_small (i + 1)) by nia.
    destruct (IH (i + 1)) as [evs ->]; [lia | | exact Ha | eauto].
    replace (i + 1 + Z.of_nat (length pre))
      with (i + Z.succ (Z.of_nat (length pre))) by lia.
    exact Hfit.
Qed.

Section HolePunchAfter.

Variable IP_String : IP → string.
Variable UDPAddr_String : UDPAddr → string.

Local Abbreviation holePunch := (holePunch IP_String UDPAddr_String).

(** X19: whenever [holePunch] returns, with a connection or with an
    error, the table of hole punches under way is what it was before the
    call: the entry it made is removed, and an entry that was there for
    the same address and peer (for which it returns "already punching
    hole") is left in place. *)
Theorem X19_holePunch_restores_table env network addr p t res t' :
  holePunch env network addr p t = Some (Returned res, t') →
  holePunching t' = holePunching t.
Proof.
  unfold holePunch.
  destruct (cm_Dial _ _ _ _ _ _ _ _) as [[pconn | e] [c h]].
  2: { intros [= _ <-]. reflexivity. }
  cbn zeta. cbn [holePunching set_pools].
  destruct (holePunching t !! (UDPAddr_String addr, p)) eqn:Ek.
  { intros [= _ <-]. reflexivity. }
  destruct (punchLoop pconn addr 0 (p_attempts env)) as [[ex evs] |];
    [| discriminate].
  destruct ex; intros [= _ <-]; cbn; apply delete_insert_id; exact Ek.
Qed.

(** X20: a hole punch that obtains a counted socket that existed before
    comes to an end, once a pass ends the loop, with the count of that
    socket what it was before the call, and no other socket changed. *)
Theorem X20_holePunch_count env network addr p t l c h x :
  cm_Dial IP_String (p_RouteGet env) (p_ListenUDP env) (p_seed env)
          network addr (connMgr t) (conns t) = (Ok (ReuseConn l), (c, h)) →
  conns t !! l = Some x →
  - 2 ^ 63 ≤ refCount x < 2 ^ 63 - 1 →
  existsb (λ a, negb (goes_on a)) (p_attempts env) = true →
  ∃ out t',
    holePunch env network addr p t = Some (out, t')
    ∧ refCount <$> conns t' !! l = Some (refCount x)
    ∧ ∀ l', l' ≠ l → conns t' !! l' = conns t !! l'.
Proof.
  intros HDial Hx Hrange Hends. unfold holePunch. rewrite HDial.
  rewrite (cm_Dial_acquires _ _ _ _ _ _ _ _ _ _ _ _ HDial Hx).
  assert (Hc : ∀ now, refCount <$> alter (DecreaseCount now) l
                                     (alter IncreaseCount l (conns t)) !! l
                      = Some (refCount x)).
  { intros now. rewrite !lookup_alter_eq, Hx.
    change (Some (refCount (DecreaseCount now (IncreaseCount x)))
            = Some (refCount x)).
    rewrite DecreaseCount_IncreaseCount by exact Hrange. reflexivity. }
  assert (Ho : ∀ now l', l' ≠ l →
                alter (DecreaseCount now) l (alter IncreaseCount l (conns t)) !! l'
                = conns t !! l').
  { intros now l' Hne. rewrite !lookup_alter_ne by congruence. reflexivity. }
  cbn zeta. cbn [holePunching set_pools].
  destruct (holePunching t !! (UDPAddr_String addr, p)).
  { do 2 eexists. split; [reflexivity |]. split; [apply Hc | apply Ho]. }
  destruct (punchLoop_ends (ReuseConn l) addr (p_attempts env) 0 Hends)
    as (ex & evs & ->).
  destruct ex; do 2 eexists; (split; [reflexivity |]);
    (split; [apply Hc | apply Ho]).
Qed.

(** X21: [holePunch] returns a connection only if the listener delivered
    it into the channel: it is the one the [select] of some pass
    received, or the one found at the last read of the channel. *)
Theorem X21_holePunch_connection_was_delivered env network addr p t conn t' :
  holePunch env network addr p t = Some (Returned (Ok conn), t') →
  (∃ a, a ∈ p_attempts env ∧ a_select a = RecvConn conn)
  ∨ p_salvage env = Some conn.
Proof.
  unfold holePunch.
  destruct (cm_Dial _ _ _ _ _ _ _ _) as [[pconn | e] [c h]]; [| discriminate].
  cbn zeta. cbn [holePunching set_pools].
  destruct (holePunching t !! (UDPAddr_String addr, p)); [discriminate |].
  destruct (punchLoop pconn addr 0 (p_attempts env)) as [[ex evs] |] eqn:E;
    [| discriminate].
  destruct ex as [c' | punchErr |]; [| | discriminate].
  - intros [= -> _]. left. eapply punchLoop_return, E.
  - destruct (p_salvage env) as [c' |]; [| discriminate].
    intros [= -> _]. right. reflexivity.
Qed.

(** X22: as long as the square of the number of passes fits a Go [int],
    [holePunch] does not panic in [rand.Intn], and every timer it arms is
    for at least 10 ms and at most 209 ms. *)
Theorem X22_holePunch_timers env network addr p t out t' :
  10 * (Z.of_nat (length (p_attempts env)) + 1)
     * (Z.of_nat (length (p_attempts env)) + 1) < 2 ^ 63 →
  holePunch env network addr p t = Some (out, t') →
  out ≠ Panicked
  ∧ ∀ d, EvTimer d ∈ calls t' →
         EvTimer d ∈ calls t ∨ 10 * Millisecond ≤ d ≤ 209 * Millisecond.
Proof.
  intros Hfit. unfold holePunch.
  destruct (cm_Dial _ _ _ _ _ _ _ _) as [[pconn | e] [c h]].
  2: { intros [= <- <-]. split; [discriminate |]. cbn. tauto. }
  cbn zeta. cbn [holePunching set_pools].
  destruct (holePunching t !! (UDPAddr_String addr, p)).
  { intros [= <- <-]. split; [discriminate |]. cbn. intros d Hd.
    apply elem_of_app in Hd as [Hd | Hd]; [left; exact Hd |].
    apply list_elem_of_singleton in Hd. discriminate. }
  destruct (punchLoop pconn addr 0 (p_attempts env)) as [[ex evs] |] eqn:E;
    [| discriminate].
  destruct (punchLoop_timers pconn addr (p_attempts env) 0 ex evs) as [Hex Hevs];
    [lia | exact Hfit | exact E |].
  assert (Hd : ∀ d, EvTimer d ∈ (calls t ++ evs) ++ [EvDecreaseCount pconn] →
                    EvTimer d ∈ calls t ∨ 10 * Millisecond ≤ d ≤ 209 * Millisecond).
  { intros d Hd. apply elem_of_app in Hd as [Hd | Hd].
    - apply elem_of_app in Hd as [Hd | Hd]; [left; exact Hd | right; apply Hevs, Hd].
    - apply list_elem_of_singleton in Hd. discriminate. }
  destruct ex; [| | contradiction]; intros [= <- <-];
    (split; [discriminate | exact Hd]).
Qed.

(** X23: when every pass before was ended by the timer and a probe
    cannot be made or sent ([rand.Read] or [WriteTo] fails), [holePunch]
    stops at that pass and returns that error, unless a connection is in
    the channel at the last read. *)
Theorem X23_holePunch_send_error env pre a post network addr p t pconn c h e :
  cm_Dial IP_String (p_RouteGet env) (p_ListenUDP env) (p_seed env)
          network addr (connMgr t) (conns t) = (Ok pconn, (c, h)) →
  holePunching t !! (UDPAddr_String addr, p) = None →
  p_attempts env = pre ++ a :: post →
  Forall (λ b, goes_on b = true) pre →
  10 * (Z.of_nat (length pre) + 1) * (Z.of_nat (length pre) + 1) < 2 ^ 63 →
  a_randRead a = Some e ∨ (a_randRead a = None ∧ a_WriteTo a = Some e) →
  p_salvage env = None →
  ∃ t', holePunch env network addr p t = Some (Returned (Err e), t').
Proof.
  intros HDial Hfree Hscript Hpre Hfit Ha Hsalvage.
  unfold holePunch. rewrite HDial. cbn zeta. cbn [holePunching set_pools].
  rewrite Hfree, Hscript.
  destruct (punchLoop_send_error pconn addr pre a post e 0 Hpre) as [evs ->];
    [lia | exact Hfit | exact Ha |].
  rewrite Hsalvage. eexists. reflexivity.
Qed.

End HolePunchAfter.

Lemma X19_holePunch_restores_table_witness :
  ∃ t',
    holePunch dotted addr_string
      (punch_env [probe TimerC; probe (RecvConn delivered_conn)] None)
      "udp4" remote_1_1_1_1 "peer" listening_transport
    = Some (Returned (Ok delivered_conn), t')
    ∧ holePunching t' = holePunching listening_transport.
Proof.
  assert (H : ∃ t',
             holePunch dotted addr_string
               (punch_env [probe TimerC; probe (RecvConn delivered_conn)] None)
               "udp4" remote_1_1_1_1 "peer" listening_transport
             = Some (Returned (Ok delivered_conn), t'))
    by (vm_compute; eexists; reflexivity).
  destruct H as [t' H]. exists t'.
  exact (conj H (X19_holePunch_restores_table dotted addr_string _ _ _ _ _ _ _ H)).
Defined.

Lemma X20_holePunch_count_witness :
  refCount <$> conns listening_transport !! 1%positive = Some 1
  ∧ existsb (λ a, negb (goes_on a))
            (p_attempts (punch_env [probe TimerC; probe (CtxDone Canceled)] None))
    = true
  ∧ ∃ out t',
      holePunch dotted addr_string
        (punch_env [probe TimerC; probe (CtxDone Canceled)] None)
        "udp4" remote_1_1_1_1 "peer" listening_transport = Some (out, t')
      ∧ refCount <$> conns t' !! 1%positive = Some 1.
Proof.
  split; [vm_compute; reflexivity |]. split; [reflexivity |].
  assert (HDial : cm_Dial dotted (route_via []) bind_any 0 "udp4" remote_1_1_1_1
                          (connMgr listening_transport) (conns listening_transport)
                  = (Ok (ReuseConn 1),
                     (set_pool UDP4 (reuseUDP4 (connMgr listening_transport))
                               (connMgr listening_transport),
                      alter IncreaseCount 1%positive (conns listening_transport))))
    by (vm_compute; reflexivity).
  assert (Hx : conns listening_transport !! 1%positive
               = Some (IncreaseCount (newReuseConn {| addrIP := IPv4zero;
                                                     Port := 5000 |})))
    by (vm_compute; reflexivity).
  destruct (X20_holePunch_count dotted addr_string
              (punch_env [probe TimerC; probe (CtxDone Canceled)] None)
              "udp4" remote_1_1_1_1 "peer" listening_transport 1%positive _ _ _
              HDial Hx ltac:(vm_compute; split; [discriminate | reflexivity])
              eq_refl) as (out & t' & H & Hc & _).
  exists out, t'. exact (conj H Hc).
Defined.

Lemma X21_holePunch_connection_was_delivered_witness :
  ∃ t',
    holePunch dotted addr_string
      (punch_env [probe (CtxDone Canceled)] (Some delivered_conn))
      "udp4" remote_1_1_1_1 "peer" listening_transport
    = Some (Returned (Ok delivered_conn), t')
    ∧ ((∃ a, a ∈ [probe (CtxDone Canceled)] ∧ a_select a = RecvConn delivered_conn)
       ∨ Some delivered_conn = Some delivered_conn).
Proof.
  assert (H : ∃ t',
             holePunch dotted addr_string
               (punch_env [probe (CtxDone Canceled)] (Some delivered_conn))
               "udp4" remote_1_1_1_1 "peer" listening_transport
             = Some (Returned (Ok delivered_conn), t'))
    by (vm_compute; eexists; reflexivity).
  destruct H as [t' H]. exists t'.
  exact (conj H (X21_holePunch_connection_was_delivered dotted addr_string
                   _ _ _ _ _ _ _ H)).
Defined.

Lemma X22_holePunch_timers_witness :
  10 * (Z.of_nat (length [probe TimerC; probe (CtxDone Canceled)]) + 1)
     * (Z.of_nat (length [probe TimerC; probe (CtxDone Canceled)]) + 1) < 2 ^ 63
  ∧ ∃ out t',
      holePunch dotted addr_string
        (punch_env [probe TimerC; probe (CtxDone Canceled)] None)
        "udp4" remote_1_1_1_1 "peer" listening_transport = Some (out, t')
      ∧ out ≠ Panicked.
Proof.
  split; [reflexivity |].
  assert (H : ∃ out t',
             holePunch dotted addr_string
               (punch_env [probe TimerC; probe (CtxDone Canceled)] None)
               "udp4" remote_1_1_1_1 "peer" listening_transport = Some (out, t'))
    by (vm_compute; do 2 eexists; reflexivity).
  destruct H as (out & t' & H). exists out, t'.
  exact (conj H (proj1 (X22_holePunch_timers dotted addr_string
                          (punch_env [probe TimerC; probe (CtxDone Canceled)] None)
                          _ _ _ _ _ _ eq_refl H))).
Defined.

Lemma X23_holePunch_send_error_witness :
  a_WriteTo unsent_probe = Some "network is unreachable"
  ∧ ∃ t',
      holePunch dotted addr_string (punch_env [probe TimerC; unsent_probe] None)
                "udp4" remote_1_1_1_1 "peer" listening_transport
      = Some (Returned (Err "network is unreachable"), t').
Proof.
  split; [reflexivity |].
  assert (HDial : cm_Dial dotted (route_via []) bind_any 0 "udp4" remote_1_1_1_1
                          (connMgr listening_transport) (conns listening_transport)
                  = (Ok (ReuseConn 1),
                     (set_pool UDP4 (reuseUDP4 (connMgr listening_transport))
                               (connMgr listening_transport),
                      alter IncreaseCount 1%positive (conns listening_transport))))
    by (vm_compute; reflexivity).
  exact (X23_holePunch_send_error dotted addr_string
           (punch_env [probe TimerC; unsent_probe] None)
           [probe TimerC] unsent_probe [] "udp4" remote_1_1_1_1 "peer"
           listening_transport _ _ _ "network is unreachable"
           HDial (lookup_empty _) eq_refl
           (Forall_cons_2 (λ b, goes_on b = true) (probe TimerC) []
                          eq_refl (Forall_nil_2 _))
           eq_refl (or_intror (conj eq_refl eq_refl)) eq_refl).
Defined.

(** ** The pool hands out open sockets *)

Section OpenSockets.

Variable maxUnusedDuration : Duration.
Variable IP_String : IP → string.

Lemma pool_open_inv_register r (h : store) r' k0 x :
  pool_open_inv r h → closed x = false →
  (∀ k, at_slot r' k = if decide (k = k0) then Some (alloc h) else at_slot r k) →
  pool_open_inv r' (<[alloc h := x]> h).
Proof.
  intros Hinv Hx Hat k l Hk. rewrite Hat in Hk.
  destruct (decide (k = k0)) as [-> | Hne].
  - injection Hk as <-. exists x. split; [apply lookup_insert_eq | exact Hx].
  - destruct (Hinv k l Hk) as (c & Hc & Hopen). exists c. split; [| exact Hopen].
    rewrite lookup_insert_ne; [exact Hc |].
    intros <-. rewrite alloc_fresh in Hc. discriminate.
Qed.

Lemma pool_open_inv_alter r (h : store) r' f l0 :
  pool_open_inv r h →
  (∀ c, closed (f c) = closed c) →
  (∀ k, at_slot r' k = at_slot r k) →
  pool_open_inv r' (alter f l0 h).
Proof.
  intros Hinv Hf Hat k l Hk. rewrite Hat in Hk.
  destruct (Hinv k l Hk) as (c & Hc & Hopen).
  destruct (decide (l0 = l)) as [-> | Hne].
  - exists (f c). rewrite lookup_alter_eq, Hc. split; [reflexivity |].
    rewrite Hf. exact Hopen.
  - exists c. rewrite lookup_alter_ne by exact Hne. split; assumption.
Qed.

Lemma Listen_keeps_open ListenUDP network laddr r (h : store) res r' h' :
  pool_open_inv r h →
  Listen IP_String ListenUDP network laddr r h = (res, (r', h')) →
  pool_open_inv r' h'.
Proof.
  intros Hinv HL.
  pose proof (Listen_registers IP_String ListenUDP network laddr r h) as HR.
  destruct (ListenUDP network (Some laddr)) as [bound | e].
  - destruct HR as (r1 & HR & _ & _ & Hat & _). rewrite HR in HL.
    injection HL as _ <- <-.
    eapply pool_open_inv_register; [exact Hinv | reflexivity | exact Hat].
  - rewrite HR in HL. injection HL as _ <- <-. exact Hinv.
Qed.

Lemma Dial_keeps_open RouteGet ListenUDP seed network raddr r (h : store) res r' h' :
  pool_open_inv r h →
  Dial IP_String RouteGet ListenUDP seed network raddr r h = (res, (r', h')) →
  pool_open_inv r' h'.
Proof.
  intros Hinv. unfold Dial.
  destruct (getSourceIPs RouteGet r network raddr) as [ips | e].
  2: { intros [= _ <- <-]. exact Hinv. }
  assert (Hstart : ∀ r1 (h1 : store) c,
             pool_open_inv r1 h1 →
             pool_open_inv (maybeStartGarbageCollector r1)
                           (alter IncreaseCount c h1)).
  { intros r1 h1 c H1. eapply pool_open_inv_alter; [exact H1 | reflexivity |].
    apply at_slot_maybeStartGarbageCollector. }
  unfold dialLocked.
  destruct (dialUnicast IP_String seed (unicast r) ips) as [c |].
  { intros [= _ <- <-]. apply Hstart, Hinv. }
  destruct (rangeFirst seed (global r)) as [[port c] |].
  { intros [= _ <- <-]. apply Hstart, Hinv. }
  destruct (ListenUDP network (wildcardAddr network)) as [bound | e];
    intros [= _ <- <-]; [| exact Hinv].
  apply Hstart.
  eapply pool_open_inv_register;
    [exact Hinv | reflexivity | apply at_slot_insert_global].
Qed.

Lemma gcTick_keeps_open now r (h : store) :
  pool_open_inv r h →
  pool_open_inv (gcTick maxUnusedDuration now r h).1
                (gcTick maxUnusedDuration now r h).2.
Proof.
  intros Hinv k l Hk. apply gcTick_exact in Hk as [Hk Hlive].
  rewrite (proj1 (gcTick_store maxUnusedDuration now r h) l Hlive).
  exact (Hinv k l Hk).
Qed.

Lemma reachable_open r h :
  reachable maxUnusedDuration IP_String r h → pool_open_inv r h.
Proof.
  intros [netlinkHandle Hrtc].
  change (pool_open_inv (r, h).1 (r, h).2).
  revert Hrtc. generalize (r, h).
  apply (rtc_ind_r (λ s : reuse * store, pool_open_inv s.1 s.2)).
  - intros [port | ip port] l Hl; cbn in Hl; rewrite lookup_empty in Hl;
      discriminate.
  - intros [r1 h1] [r2 h2] _ Hstep IH. cbn [fst snd] in *.
    inversion Hstep; subst.
    + eapply Listen_keeps_open; eassumption.
    + eapply Dial_keeps_open; eassumption.
    + match goal with
      | Hgc : gcTick _ ?now _ _ = _ |- _ =>
          pose proof (gcTick_keeps_open now r1 h1 IH) as Hk;
          rewrite Hgc in Hk; exact Hk
      end.
    + eapply pool_open_inv_alter; [exact IH | reflexivity | reflexivity].
Qed.

(** X24: in every state a pool can reach, each socket in the indices
    exists and has not been closed (the collector closes a socket only
    as it removes it); so the socket a [Dial] returns is open. *)
Theorem X24_Dial_returns_open_socket
    RouteGet ListenUDP seed network raddr r h c r' h' :
  reachable maxUnusedDuration IP_String r h →
  Dial IP_String RouteGet ListenUDP seed network raddr r h = (Ok c, (r', h')) →
  (∀ k l, at_slot r k = Some l → closed <$> h !! l = Some false)
  ∧ closed <$> h' !! c = Some false.
Proof.
  intros Hreach HDial. pose proof (reachable_open r h Hreach) as Hinv. split.
  - intros k l Hk. destruct (Hinv k l Hk) as (x & -> & Hx). cbn. congruence.
  - pose proof (Dial_keeps_open _ _ _ _ _ _ _ _ _ _ Hinv HDial) as Hinv'.
    unfold Dial in HDial.
    destruct (getSourceIPs RouteGet r network raddr) as [ips | e]; [| discriminate].
    destruct (dialLocked IP_String ListenUDP seed network raddr ips r h)
      as [[c1 | e] [r1 h1]] eqn:Ed; [| discriminate].
    injection HDial as -> <- <-.
    destruct (dialLocked_Ok_slot _ _ _ _ _ _ _ _ _ _ _ Ed) as [k Hk].
    destruct (Hinv' k c) as (x & -> & Hx).
    + rewrite at_slot_maybeStartGarbageCollector. exact Hk.
    + cbn. congruence.
Qed.

End OpenSockets.

Lemma X24_Dial_returns_open_socket_witness :
  reachable defaultMaxUnusedDuration dotted pool_unicast.1 pool_unicast.2
  ∧ Dial dotted (route_via [IPv4 10 0 0 1]) bind_any 0 "udp4" remote_1_1_1_1
         pool_unicast.1 pool_unicast.2
    = (Ok 1%positive,
       (pool_unicast.1, alter IncreaseCount 1%positive pool_unicast.2))
  ∧ closed <$> alter IncreaseCount 1%positive pool_unicast.2 !! 1%positive
    = Some false.
Proof.
  assert (HDial : Dial dotted (route_via [IPv4 10 0 0 1]) bind_any 0 "udp4"
                       remote_1_1_1_1 pool_unicast.1 pool_unicast.2
                  = (Ok 1%positive,
                     (pool_unicast.1,
                      alter IncreaseCount 1%positive pool_unicast.2)))
    by (vm_compute; reflexivity).
  exact (conj pool_unicast_reachable
           (conj HDial
              (proj2 (X24_Dial_returns_open_socket defaultMaxUnusedDuration dotted
                        _ _ _ _ _ _ _ _ _ _ pool_unicast_reachable HDial)))).
Defined.

(** ** [transport.Listen] *)

Section ListenProperties.

Variable IP_String : IP → string.

(** X25: when the listener cannot be made on the socket obtained from a
    pool, [transport.Listen] returns that error after one
    [DecreaseCount]: the new socket stays in the pool where [Listen] put
    it, open, at count 0 and idle since the time of the call, for the
    garbage collector to take. *)
Theorem X25_Listen_wrap_failure env t lnet host laddr f bound e :
  l_DialArgs env = Ok (lnet, host) →
  l_ResolveUDPAddr env = Ok laddr →
  reuseportEnable (connMgr t) = true →
  getReuse lnet = Ok f →
  l_ListenUDP env lnet (Some laddr) = Ok bound →
  l_newListener env = Err e →
  ∃ t',
    transport_Listen IP_String env t = (Err e, t')
    ∧ conns t' !! alloc (conns t)
      = Some {| LocalAddr := bound; closed := false;
                refCount := 0; unusedSince := l_now env |}
    ∧ at_slot (pool f (connMgr t')) (slot_of IP_String bound)
      = Some (alloc (conns t))
    ∧ calls t' = calls t ++ [EvDecreaseCount (ReuseConn (alloc (conns t)))].
Proof.
  intros HArgs HResolve Hen Hf Hbind HLn.
  unfold transport_Listen, cm_Listen. rewrite HArgs, HResolve, Hen, Hf.
  pose proof (Listen_registers IP_String (l_ListenUDP env) lnet laddr
                (pool f (connMgr t)) (conns t)) as HR.
  rewrite Hbind in HR. destruct HR as (r1 & -> & _ & _ & Hat & _).
  rewrite HLn. eexists. split; [reflexivity |].
  cbn [release call set_pools conns connMgr calls pDecreaseCount].
  split; [| split].
  - rewrite lookup_alter_eq, lookup_insert_eq.
    cbn. destruct (Z.eqb_spec (wrap64 (wrap64 (0 + 1) - 1)) 0) as [_ | Hne];
      [reflexivity |].
    exfalso. apply Hne. reflexivity.
  - assert (Hp : pool f (set_pool f r1 (connMgr t)) = r1) by (destruct f; reflexivity).
    rewrite Hp, Hat. destruct (decide _); [reflexivity | contradiction].
  - reflexivity.
Qed.

End ListenProperties.

Lemma X25_Listen_wrap_failure_witness :
  l_newListener listen_wrap_fails = Err "listener failed"
  ∧ getReuse "udp4" = Ok UDP4
  ∧ ∃ t',
      transport_Listen dotted listen_wrap_fails new_transport
      = (Err "listener failed", t')
      ∧ conns t' !! alloc (conns new_transport)
        = Some {| LocalAddr := {| addrIP := IPv4zero; Port := 5000 |};
                  closed := false; refCount := 0; unusedSince := 1000 |}.
Proof.
  split; [reflexivity |]. split; [reflexivity |].
  destruct (X25_Listen_wrap_failure dotted listen_wrap_fails new_transport
              "udp4" "0.0.0.0:0" {| addrIP := IPv4zero; Port := 0 |} UDP4
              {| addrIP := IPv4zero; Port := 5000 |} "listener failed"
              eq_refl eq_refl eq_refl eq_refl eq_refl eq_refl)
    as (t' & H & Hc & _).
  exists t'. exact (conj H Hc).
Defined.

(** ** Resolving the source address *)

Section SourceIPs.

Variable IP_String : IP → string.

(** Without a netlink handle the routing table is not consulted, and
    [Dial] does the same whatever it would answer; with a handle, a
    failing route query makes [Dial] fail with that error, and nothing is
    changed. *)
Lemma Dial_route_query RouteGet ListenUDP seed network raddr r (h : store) :
  (handle r = false →
   ∀ RouteGet',
     Dial IP_String RouteGet ListenUDP seed network raddr r h
     = Dial IP_String RouteGet' ListenUDP seed network raddr r h)
  ∧ (handle r = true →
     ∀ e, RouteGet (addrIP raddr) = Err e →
          Dial IP_String RouteGet ListenUDP seed network raddr r h
          = (Err e, (r, h))).
Proof.
  unfold Dial, getSourceIPs. split.
  - intros -> RouteGet'. reflexivity.
  - intros -> e ->. reflexivity.
Qed.

End SourceIPs.
